(** * testfixtures.logcapture: a shallow embedding of [LogCapture]

    The file follows [src/testfixtures/logcapture.py].  The Python logging
    framework and the class-level registry are mutable, process-wide state;
    they are gathered in a record [world] and every method of [LogCapture] is
    a computation in a small state-and-exception monad [M] over it.  Objects
    are referred to by identity ([oid]), as Python does. *)

From Stdlib Require Import ZArith.
From stdpp Require Import gmap strings list fin_maps sets.

Open Scope Z_scope.

(** ** Data model *)

(** Identity of a Python object (a handler, a [LogCapture]). *)
Abbreviation oid := nat.

(** The values met as an element of [self.names]: [None] (the root logger), a
    string, or a list of strings (what a caller passes when a list rather
    than a tuple is given to the constructor). *)
Inductive name :=
  | NNone
  | NStr (s : string)
  | NList (l : list string).

#[global] Instance name_eq_dec : EqDecision name.
Proof. solve_decision. Defined.

Definition name_to_sum (n : name) : unit + (string + list string) :=
  match n with
  | NNone => inl ()
  | NStr s => inr (inl s)
  | NList l => inr (inr l)
  end.

Definition name_of_sum (x : unit + (string + list string)) : name :=
  match x with
  | inl _ => NNone
  | inr (inl s) => NStr s
  | inr (inr l) => NList l
  end.

#[global] Instance name_countable : Countable name :=
  inj_countable' name_to_sum name_of_sum
    (λ n, match n with NNone => eq_refl | NStr _ => eq_refl | NList _ => eq_refl end).

(** The [names] argument of the constructor: a tuple of names, or any other
    value ([isinstance(names, tuple)] is false). *)
Inductive names_arg :=
  | ATuple (t : list name)
  | AOther (v : name).

(** A Python value, as far as the framework's bookkeeping holds and compares
    them: an object (a handler) by identity, a string, or a weak reference
    to an object.  Values of different kinds are never equal. *)
Inductive value :=
  | VObj (o : oid)
  | VStr (s : string)
  | VRef (referent : oid).

#[global] Instance value_eq_dec : EqDecision value.
Proof. solve_decision. Defined.

Definition value_to_sum (v : value) : oid + (string + oid) :=
  match v with
  | VObj o => inl o
  | VStr s => inr (inl s)
  | VRef o => inr (inr o)
  end.

Definition value_of_sum (x : oid + (string + oid)) : value :=
  match x with
  | inl o => VObj o
  | inr (inl s) => VStr s
  | inr (inr o) => VRef o
  end.

#[global] Instance value_countable : Countable value :=
  inj_countable' value_to_sum value_of_sum
    (λ v, match v with VObj _ => eq_refl | VStr _ => eq_refl | VRef _ => eq_refl end).

(** A logger of the framework, as far as this module reads and writes it. *)
Record Logger := mkLogger {
  logger_level : Z;
  logger_handlers : list oid
}.

(** A piece of a log record's message: literal text, or a [%s] directive
    together with the argument object it formats.  The argument is kept by
    reference: [getMessage] reads the object when it is called. *)
Inductive piece :=
  | Lit (s : string)
  | Arg (a : oid).

(** [logging.LogRecord], as far as [actual] reads it.  [msg] holds the
    message template with its arguments; records whose arguments do not
    match the directives of the template are not represented. *)
Record LogRecord := mkLogRecord {
  rec_name : string;
  rec_levelname : string;
  rec_msg : list piece
}.

(** The current [str()] of the objects passed as message arguments. *)
Abbreviation objects := (gmap oid string).

(** The (logger_name, string_level, message) triples of [actual]. *)
Definition triple : Type := string * string * string.

(** The instance attributes of a [LogCapture]. *)
Record LogCapture := mkLogCapture {
  names : list name;
  level : Z;
  oldlevels : gmap name Z;
  oldhandlers : gmap name (list oid);
  records : list LogRecord
}.

(** Process-wide state: the loggers of [logging] keyed by name (the root
    logger under the empty name), the objects of class [LogCapture], the
    class attributes [instances] and [atexit_setup], the hooks registered
    with [atexit], and the framework's bookkeeping: [logging._handlers],
    which maps the names of the handlers that have been given one to them,
    and [logging._handlerList], to which [logging.Handler.__init__] appends
    a weak reference to every new handler. *)
Record world := mkWorld {
  loggers : gmap string Logger;
  heap : gmap oid LogCapture;
  next_oid : oid;
  instances : gset oid;
  atexit_setup : bool;
  atexit_hooks : nat;
  _handlers : gmap value oid;
  _handlerList : list value
}.

(** What [compare] reports: the first index at which the two sequences
    differ, with the element each has there (none past its end). *)
Inductive mismatch :=
  | Mismatch (index : nat) (expected actual : option triple).

Inductive exn :=
  | TypeError
  | KeyError
  | AssertionError (m : mismatch)
  | Dangling.  (* the model's heap has no object at an identity; no Python counterpart *)

Inductive outcome (A : Type) :=
  | Returned (a : A)
  | Raised (e : exn).
Arguments Returned {A} a.
Arguments Raised {A} e.

(** ** The monad of methods *)

Definition M (A : Type) : Type := world → outcome A * world.

Definition ret {A} (a : A) : M A := λ w, (Returned a, w).
Definition raise {A} (e : exn) : M A := λ w, (Raised e, w).
Definition bind {A B} (m : M A) (k : A → M B) : M B := λ w,
  match m w with
  | (Returned a, w') => k a w'
  | (Raised e, w') => (Raised e, w')
  end.
Definition gets {A} (f : world → A) : M A := λ w, (Returned (f w), w).
Definition modify (f : world → world) : M unit := λ w, (Returned tt, f w).

Notation "x <- m ;; k" := (bind m (λ x, k))
  (at level 100, m at next level, right associativity, only parsing).
Notation "m ;; k" := (bind m (λ _, k))
  (at level 100, right associativity, only parsing).

(** [for x in l: body x] *)
Fixpoint for_each {A} (l : list A) (body : A → M unit) : M unit :=
  match l with
  | [] => ret tt
  | x :: l' => body x ;; for_each l' body
  end.

(** [d[k]] on a dict *)
Definition subscript {V} (d : gmap name V) (k : name) : M V :=
  match d !! k with
  | Some v => ret v
  | None => raise KeyError
  end.

(** ** The logging framework *)

(** A logger that [getLogger] has not handed out yet is created on demand:
    level [NOTSET] and no handlers; the root logger starts at [WARNING]. *)
Definition fresh_logger (k : string) : Logger :=
  if decide (k = "") then mkLogger 30 [] else mkLogger 0 [].

Definition get_logger (w : world) (k : string) : Logger :=
  default (fresh_logger k) (loggers w !! k).

(** [logging.getLogger(name)]: the root logger for [None], for the empty
    string and for the root logger's own name, ['root']
    ([if not name or isinstance(name, str) and name == root.name: return root]);
    the root logger is kept under the empty name here.  A list is no logger
    name: the framework raises [TypeError], or returns the root logger for
    the empty list, which then fails as a key of [oldlevels]; in both cases
    before anything is changed. *)
Definition logger_key (n : name) : option string :=
  match n with
  | NNone => Some ""
  | NStr s => if decide (s = "root") then Some "" else Some s
  | NList _ => None
  end.

Definition getLogger (n : name) : M string :=
  match logger_key n with
  | Some k => ret k
  | None => raise TypeError
  end.

Definition set_loggers (f : gmap string Logger → gmap string Logger) (w : world) : world :=
  mkWorld (f (loggers w)) (heap w) (next_oid w) (instances w)
          (atexit_setup w) (atexit_hooks w) (_handlers w) (_handlerList w).

(** [logger.setLevel(lvl)] *)
Definition setLevel (k : string) (lvl : Z) : M unit :=
  modify (λ w, set_loggers <[k := mkLogger lvl (logger_handlers (get_logger w k))]> w).

(** [logger.handlers = hs] *)
Definition set_handlers (k : string) (hs : list oid) : M unit :=
  modify (λ w, set_loggers <[k := mkLogger (logger_level (get_logger w k)) hs]> w).

(** [lst.remove(x)]: the first occurrence *)
Fixpoint list_remove (x : value) (l : list value) : list value :=
  match l with
  | [] => []
  | y :: l' => if decide (x = y) then l' else y :: list_remove x l'
  end.

Definition set_heap (f : gmap oid LogCapture → gmap oid LogCapture) (w : world) : world :=
  mkWorld (loggers w) (f (heap w)) (next_oid w) (instances w)
          (atexit_setup w) (atexit_hooks w) (_handlers w) (_handlerList w).

Definition set_instances (f : gset oid → gset oid) (w : world) : world :=
  mkWorld (loggers w) (heap w) (next_oid w) (f (instances w))
          (atexit_setup w) (atexit_hooks w) (_handlers w) (_handlerList w).

(** [self.attr] *)
Definition deref (self : oid) : M LogCapture := λ w,
  match heap w !! self with
  | Some c => (Returned c, w)
  | None => (Raised Dangling, w)
  end.

(** [self.attr = v] *)
Definition update (self : oid) (f : LogCapture → LogCapture) : M unit :=
  c <- deref self ;;
  modify (set_heap <[self := f c]>).

(** ** The comparison helper *)

(** Modelled from the spec: [testfixtures.comparison.compare] is not among
    the sources.  Given two sequences of triples it returns success (the
    neutral result, Python's [None]) or a descriptive failure indicating the
    first point of divergence (index, expected value, actual value); with
    [recursive=False] the triples are compared by direct equality. *)
Fixpoint first_divergence (k : nat) (xs ys : list triple) : option mismatch :=
  match xs, ys with
  | [], [] => None
  | x :: xs', y :: ys' =>
      if decide (x = y) then first_divergence (S k) xs' ys'
      else Some (Mismatch k (Some x) (Some y))
  | x :: _, [] => Some (Mismatch k (Some x) None)
  | [], y :: _ => Some (Mismatch k None (Some y))
  end.

Definition compare (x y : list triple) : M unit :=
  match first_divergence 0 x y with
  | None => ret tt
  | Some m => raise (AssertionError m)
  end.

(** ** LogCapture *)

Definition with_oldlevels (f : gmap name Z → gmap name Z) (c : LogCapture) : LogCapture :=
  mkLogCapture (names c) (level c) (f (oldlevels c)) (oldhandlers c) (records c).

Definition with_oldhandlers (f : gmap name (list oid) → gmap name (list oid))
    (c : LogCapture) : LogCapture :=
  mkLogCapture (names c) (level c) (oldlevels c) (f (oldhandlers c)) (records c).

Definition with_records (f : list LogRecord → list LogRecord) (c : LogCapture) : LogCapture :=
  mkLogCapture (names c) (level c) (oldlevels c) (oldhandlers c) (f (records c)).

(** [self.records = []] *)
Definition clear (self : oid) : M unit :=
  update self (with_records (λ _, [])).

(** [self.records.append(record)] *)
Definition emit (self : oid) (record : LogRecord) : M unit :=
  update self (with_records (λ rs, rs ++ [record])).

(** [atexit.register(self.atexit); self.__class__.atexit_setup = True] *)
Definition register_atexit (w : world) : world :=
  mkWorld (loggers w) (heap w) (next_oid w) (instances w)
          true (S (atexit_hooks w)) (_handlers w) (_handlerList w).

(** The body of the loop of [install]. *)
Definition install_channel (self : oid) (name : name) : M unit :=
  logger <- getLogger name ;;
  lvl <- gets (λ w, logger_level (get_logger w logger)) ;;
  update self (with_oldlevels <[name := lvl]>) ;;
  hs <- gets (λ w, logger_handlers (get_logger w logger)) ;;
  update self (with_oldhandlers <[name := hs]>) ;;
  c <- deref self ;;
  setLevel logger (level c) ;;
  set_handlers logger [self].

Definition install (self : oid) : M unit :=
  c <- deref self ;;
  for_each (names c) (install_channel self) ;;
  modify (set_instances (λ s, {[self]} ∪ s)) ;;
  setup <- gets atexit_setup ;;
  if setup : bool then ret tt else modify register_atexit.

(** [if self in logging._handlers: del logging._handlers[self]] and
    [if self in logging._handlerList: logging._handlerList.remove(self)] *)
Definition forget_handler (self : oid) (w : world) : world :=
  mkWorld (loggers w) (heap w) (next_oid w) (instances w)
          (atexit_setup w) (atexit_hooks w)
          (if decide (VObj self ∈ dom (_handlers w)) then delete (VObj self) (_handlers w)
           else _handlers w)
          (if decide (VObj self ∈ _handlerList w)
           then list_remove (VObj self) (_handlerList w)
           else _handlerList w).

(** The body of the loop of [uninstall]. *)
Definition uninstall_channel (self : oid) (name : name) : M unit :=
  logger <- getLogger name ;;
  c <- deref self ;;
  lvl <- subscript (oldlevels c) name ;;
  setLevel logger lvl ;;
  c <- deref self ;;
  hs <- subscript (oldhandlers c) name ;;
  set_handlers logger hs ;;
  modify (forget_handler self).

Definition uninstall (self : oid) : M unit :=
  registered <- gets (λ w, bool_decide (self ∈ instances w)) ;;
  if registered : bool then
    c <- deref self ;;
    for_each (names c) (uninstall_channel self) ;;
    modify (set_instances (λ s, s ∖ {[self]}))
  else ret tt.

(** [for i in tuple(cls.instances): i.uninstall()], the set walked in the
    order [order]. *)
Definition uninstall_all_in (order : list oid) : M unit :=
  for_each order uninstall.

(** Python leaves the iteration order of a set open; one order makes the
    definition executable, the theorems quantify over all of them. *)
Definition uninstall_all : M unit :=
  order <- gets (λ w, elements (instances w)) ;;
  uninstall_all_in order.

(** [str(obj)] of a message argument, now. *)
Definition str_of (σ : objects) (a : oid) : string := default "" (σ !! a).

Definition render (σ : objects) (p : piece) : string :=
  match p with
  | Lit s => s
  | Arg a => str_of σ a
  end.

(** [record.getMessage()]: [msg % args], computed when called. *)
Definition getMessage (σ : objects) (r : LogRecord) : string :=
  foldr (λ p s, render σ p +:+ s) "" (rec_msg r).

(** [for r in self.records: yield (r.name, r.levelname, r.getMessage())],
    walked to its end. *)
Definition entry (σ : objects) (r : LogRecord) : triple :=
  (rec_name r, rec_levelname r, getMessage σ r).

Definition actual (σ : objects) (self : oid) : M (list triple) :=
  c <- deref self ;;
  ret (entry σ <$> records c).

Definition newline : string := String (Ascii.ascii_of_nat 10) EmptyString.

Fixpoint join (sep : string) (l : list string) : string :=
  match l with
  | [] => ""
  | [s] => s
  | s :: l' => s +:+ sep +:+ join sep l'
  end.


Definition check (σ : objects) (self : oid) (expected : list triple) : M unit :=
  rs <- actual σ self ;;
  compare expected rs.

(** [logging.Handler.__init__(self)]: the new handler has no name, and
    [_addHandlerRef] appends a weak reference to it to [_handlerList]. *)
Definition allocate (w : world) : world :=
  mkWorld (loggers w) (heap w) (S (next_oid w)) (instances w)
          (atexit_setup w) (atexit_hooks w)
          (_handlers w) (_handlerList w ++ [VRef (next_oid w)]).

(** [if not isinstance(names, tuple): names = (names,)] *)
Definition names_of (a : names_arg) : list name :=
  match a with
  | ATuple t => t
  | AOther v => [v]
  end.

(** [LogCapture(names, install, level)]: returns the new object. *)
Definition __init__ (a : names_arg) (do_install : bool) (lvl : Z) : M oid :=
  self <- gets next_oid ;;
  modify allocate ;;
  modify (set_heap <[self := mkLogCapture (names_of a) lvl ∅ ∅ []]>) ;;
  clear self ;;
  (if do_install then install self else ret tt) ;;
  ret self.

(** The defaults of the constructor: [names=None, install=True, level=1]. *)
Definition default_names : names_arg := AOther NNone.
Definition default_install : bool := true.
Definition default_level : Z := 1.

Definition __enter__ (self : oid) : M oid := ret self.

(** [__exit__(self, type, value, traceback)]; the three arguments are not
    read.  It returns [None]: an exception of the block is not swallowed. *)
Definition __exit__ (self : oid) : M unit := uninstall self.

(** [with mgr as v: block], for a manager whose [__exit__] returns [None]:
    [__exit__] runs when the block returns and when it raises, and the
    block's exception is raised again after it. *)
Definition with_ {A} (mgr : oid) (block : oid → M A) : M A := λ w,
  match __enter__ mgr w with
  | (Raised e, w1) => (Raised e, w1)
  | (Returned v, w1) =>
      let '(r, w2) := block v w1 in
      match __exit__ mgr w2 with
      | (Raised e, w3) => (Raised e, w3)
      | (Returned _, w3) => (r, w3)
      end
  end.

(** The state of a fresh interpreter: no logger configured, no object. *)
Definition initial : world := mkWorld ∅ ∅ 0%nat ∅ false 0%nat ∅ [].

(** The final state and the outcome of a computation. *)
Definition exec {A} (m : M A) (w : world) : world := (m w).2.
Definition eval {A} (m : M A) (w : world) : outcome A := (m w).1.

(** ** The two loops as folds over the names

    Functions on the state that the loops of [install] and [uninstall] are
    proved to compute. *)

Definition hashable (n : name) : Prop := is_Some (logger_key n).

(** One turn of the loop of [install], as a function on the state. *)
Definition swap_channel (self : oid) (w : world) (n : name) : world :=
  match heap w !! self, logger_key n with
  | Some c, Some k =>
      mkWorld (<[k := mkLogger (level c) [self]]> (loggers w))
              (<[self := mkLogCapture (names c) (level c)
                           (<[n := logger_level (get_logger w k)]> (oldlevels c))
                           (<[n := logger_handlers (get_logger w k)]> (oldhandlers c))
                           (records c)]> (heap w))
              (next_oid w) (instances w) (atexit_setup w) (atexit_hooks w)
              (_handlers w) (_handlerList w)
  | _, _ => w
  end.

(** What an instance has saved under a name: the level in [oldlevels] and
    the handlers in [oldhandlers]. *)
Definition saved_channel (c : LogCapture) (n : name) : option Logger :=
  match oldlevels c !! n, oldhandlers c !! n with
  | Some lvl, Some hs => Some (mkLogger lvl hs)
  | _, _ => None
  end.

(** A name whose logger and saved configuration [uninstall] can read back. *)
Definition restorable (c : LogCapture) (n : name) : Prop :=
  hashable n ∧ is_Some (saved_channel c n).

(** One turn of the loop of [uninstall], as a function on the state. *)
Definition restore_channel (self : oid) (c : LogCapture) (w : world) (n : name) : world :=
  match logger_key n, saved_channel c n with
  | Some k, Some lg => forget_handler self (set_loggers <[k := lg]> w)
  | _, _ => w
  end.

(** The loggers a tuple of names refers to. *)
Definition channels (ns : list name) : list string := omap logger_key ns.

(** The names of a tuple that refer to the logger [k], in order. *)
Definition referring (ns : list name) (k : string) : list name :=
  filter (λ n, logger_key n = Some k) ns.

(** [n] is the one name of the tuple [ns] that refers to the logger [k]:
    it occurs once in it, and no other name of the tuple refers to [k]. *)
Definition sole_name (ns : list name) (n : name) (k : string) : Prop :=
  referring ns k = [n].

(** The end of [install], as a function on the state. *)
Definition register (self : oid) (w : world) : world :=
  let w' := set_instances (λ s, {[self]} ∪ s) w in
  if atexit_setup w' then w' else register_atexit w'.

(** ** Vocabulary of the statements *)

(** The argument objects a record's message formats. *)
Definition args (r : LogRecord) : list oid :=
  omap (λ p, match p with Arg a => Some a | Lit _ => None end) (rec_msg r).

(** The framework hands the events [es] to the handler, in order. *)
Definition deliver (self : oid) (es : list LogRecord) : M unit :=
  for_each es (emit self).

(** The state when the constructor has set the attributes of the new
    object, before it calls [install]. *)
Definition created (a : names_arg) (lvl : Z) (w : world) : world :=
  set_heap <[next_oid w := mkLogCapture (names_of a) lvl ∅ ∅ []]> (allocate w).

(** A registered instance that [uninstall] can restore: the object exists
    and holds a saved configuration under each of its names. *)
Definition installed_ok (w : world) (i : oid) : Prop :=
  ∃ c, heap w !! i = Some c ∧ Forall (restorable c) (names c).

(** A registered instance one of whose names refers to the logger [k]. *)
Definition owns (w : world) (i : oid) (k : string) : Prop :=
  i ∈ instances w ∧ ∃ c, heap w !! i = Some c ∧ k ∈ channels (names c).

(** ** Histories of calls *)

(** The calls a test can make on the module. *)
Inductive call :=
  | Construct (a : names_arg) (do_install : bool) (lvl : Z)
  | Install (i : oid)
  | Uninstall (i : oid)
  | UninstallAll
  | Clear (i : oid)
  | Emit (i : oid) (r : LogRecord)
  | Enter (i : oid)
  | Exit (i : oid).

(** One call, made on an object that exists; a call that raises is a step
    too, to the state it leaves.  [uninstall_all] walks the registry in some
    order. *)
Inductive step : world → call → world → Prop :=
  | step_construct w a b lvl :
      step w (Construct a b lvl) (exec (__init__ a b lvl) w)
  | step_install w i :
      is_Some (heap w !! i) → step w (Install i) (exec (install i) w)
  | step_uninstall w i :
      is_Some (heap w !! i) → step w (Uninstall i) (exec (uninstall i) w)
  | step_uninstall_all w order :
      order ≡ₚ elements (instances w) →
      step w UninstallAll (exec (uninstall_all_in order) w)
  | step_clear w i :
      is_Some (heap w !! i) → step w (Clear i) (exec (clear i) w)
  | step_emit w i r :
      is_Some (heap w !! i) → step w (Emit i r) (exec (emit i r) w)
  | step_enter w i :
      is_Some (heap w !! i) → step w (Enter i) (exec (__enter__ i) w)
  | step_exit w i :
      is_Some (heap w !! i) → step w (Exit i) (exec (__exit__ i) w).

(** The states reached from [w0] by a sequence of calls. *)
Inductive reaches (w0 : world) : list call → world → Prop :=
  | reaches_nil : reaches w0 [] w0
  | reaches_snoc tr w c w' :
      reaches w0 tr w → step w c w' → reaches w0 (tr ++ [c]) w'.

(** A process in which no [LogCapture] has been created yet; the loggers
    may be configured in any way. *)
Definition pristine (w0 : world) : Prop :=
  heap w0 = ∅ ∧ instances w0 = ∅ ∧ next_oid w0 = 0%nat.

(** The names given to the constructors are logger names. *)
Definition well_typed (c : call) : Prop :=
  match c with
  | Construct a _ _ => Forall hashable (names_of a)
  | _ => True
  end.

(** Follows the spec's words, not the code: the instances that are
    currently installed after a sequence of calls, i.e. that have swapped
    themselves into their logging channels (by [install()], or in a
    constructor called with [install] set) and have not restored them since
    (by [uninstall()], by leaving a [with] block, or by
    [uninstall_all()]).  Objects are numbered in the order of their
    construction. *)
Record history := mkHistory {
  constructed : nat;
  installed : gset oid
}.

Definition record_call (h : history) (c : call) : history :=
  match c with
  | Construct _ b _ =>
      mkHistory (S (constructed h))
                (if b then {[constructed h]} ∪ installed h else installed h)
  | Install i => mkHistory (constructed h) ({[i]} ∪ installed h)
  | Uninstall i | Exit i => mkHistory (constructed h) (installed h ∖ {[i]})
  | UninstallAll => mkHistory (constructed h) ∅
  | Clear _ | Emit _ _ | Enter _ => h
  end.

Definition currently_installed (tr : list call) : gset oid :=
  installed (foldl record_call (mkHistory 0 ∅) tr).

(** What holds of every state reached by a history [tr] of calls. *)
Definition invariant (tr : list call) (w : world) : Prop :=
  instances w = currently_installed tr ∧
  next_oid w = constructed (foldl record_call (mkHistory 0 ∅) tr) ∧
  (∀ i, is_Some (heap w !! i) ↔ (i < next_oid w)%nat) ∧
  (∀ i c, heap w !! i = Some c → Forall hashable (names c)) ∧
  (∀ i, i ∈ instances w → installed_ok w i).








(** ** Scenarios *)

(** A process in which the logger [a] has been configured by hand: level
    [WARNING] and one handler, the object 0. *)
Definition configured : world :=
  mkWorld {["a" := mkLogger 30 [0%nat]]} ∅ 1%nat ∅ false 0%nat ∅ [VRef 0%nat].

Definition retry : LogRecord :=
  mkLogRecord "app.db" "WARNING" [Lit "connection retry"].

Definition failed : LogRecord :=
  mkLogRecord "app.db" "ERROR" [Lit "connection failed"].

(** [log.info("items: %s", items)], with the list [items] as object 5. *)
Definition items : LogRecord :=
  mkLogRecord "app" "INFO" [Lit "items: "; Arg 5%nat].

(** The reading of an entry as a snapshot rendered at capture time:
    whatever the argument objects are when the buffer is read ([σ']), the
    entry of a record carries the message they gave when [emit] ran ([σ]). *)
Definition rendered_at_capture : Prop :=
  ∀ (σ σ' : objects) self w c r,
    heap w !! self = Some c →
    eval (actual σ' self) (exec (emit self r) w)
    = Returned ((entry σ' <$> records c)
                ++ [(rec_name r, rec_levelname r, getMessage σ r)]).

(** ** Vocabulary of the further statements *)


(** The framework's bookkeeping holds handlers the way its own code
    enters them: [_handlers] under their names, which are strings, and
    [_handlerList] as weak references. *)
Definition by_reference (w : world) : Prop :=
  (∀ v, v ∈ dom (_handlers w) → ∃ s, v = VStr s) ∧
  (∀ v, v ∈ _handlerList w → ∃ h, v = VRef h).

(** ** The exit audit *)

(** [for x in l], collecting what the body returns. *)
Fixpoint collect {A B} (l : list A) (body : A → M B) : M (list B) :=
  match l with
  | [] => ret []
  | x :: l' => y <- body x ;; ys <- collect l' body ;; ret (y :: ys)
  end.

(** [str(n)] of an element of [names]; [repr] is Python's [repr] on strings
    (its quoting and escaping), which is not modelled. *)
Definition str_name (repr : string → string) (n : name) : string :=
  match n with
  | NNone => "None"
  | NStr s => repr s
  | NList l => "[" +:+ join ", " (repr <$> l) +:+ "]"
  end.

(** [str(names)] of a tuple: a tuple of one element ends in a comma. *)
Definition str_names (repr : string → string) (ns : list name) : string :=
  match ns with
  | [n] => "(" +:+ str_name repr n +:+ ",)"
  | _ => "(" +:+ join ", " (str_name repr <$> ns) +:+ ")"
  end.

Definition atexit_header : string :=
  "LogCapture instances not uninstalled by shutdown, loggers captured:".

(** [cls.atexit()]: returns the text of the warning it issues through
    [warnings.warn], if it issues one; the registry is walked in the order
    [order]. *)
Definition atexit (repr : string → string) (order : list oid) : M (option string) :=
  registered <- gets (λ w, bool_decide (instances w ≠ ∅)) ;;
  if registered : bool then
    lines <- collect order (λ i, c <- deref i ;; ret (str_names repr (names c))) ;;
    ret (Some (atexit_header +:+ newline +:+ join newline lines))
  else ret None.

(** ** The decorator variant *)

(** The module has two classes.  The registry [instances] is one set for
    both, but [atexit_setup], which [install] reads and assigns through
    [self.__class__], is looked up on the class of the instance: for an
    instance of [LogCaptureForDecorator] on that class first, where it is
    found only once an assignment has put it there, and on [LogCapture]
    otherwise.  [atexit_setup] of [base] is the attribute of [LogCapture]. *)
Record process := mkProcess {
  base : world;
  decorator_atexit_setup : option bool
}.

Definition P (A : Type) : Type := process → outcome A * process.

(** A method that does not go through [self.__class__], or is called on an
    instance of [LogCapture]. *)
Definition lift {A} (m : M A) : P A := λ p,
  let '(o, w) := m (base p) in (o, mkProcess w (decorator_atexit_setup p)).

(** The statements of [install] before the test of [atexit_setup]. *)
Definition install_swap (self : oid) : M unit :=
  c <- deref self ;;
  for_each (names c) (install_channel self) ;;
  modify (set_instances (λ s, {[self]} ∪ s)).

(** [atexit.register(self.atexit)] *)
Definition add_hook (w : world) : world :=
  mkWorld (loggers w) (heap w) (next_oid w) (instances w)
          (atexit_setup w) (S (atexit_hooks w)) (_handlers w) (_handlerList w).

(** [LogCapture.install(self)] on an instance of [LogCaptureForDecorator]. *)
Definition install_as_decorator (self : oid) : P unit := λ p,
  match install_swap self (base p) with
  | (Raised e, w) => (Raised e, mkProcess w (decorator_atexit_setup p))
  | (Returned _, w) =>
      if default (atexit_setup w) (decorator_atexit_setup p)
      then (Returned tt, mkProcess w (decorator_atexit_setup p))
      else (Returned tt, mkProcess (add_hook w) (Some true))
  end.

(** [LogCaptureForDecorator.install]: [LogCapture.install(self); return self] *)
Definition LogCaptureForDecorator_install (self : oid) : P oid := λ p,
  match install_as_decorator self p with
  | (Returned _, p') => (Returned self, p')
  | (Raised e, p') => (Raised e, p')
  end.

(** [log_capture] (called with the names and the keyword [level]) up to its call of [wrap]: it returns the new
    capture [l], whose [install] and [uninstall] are the two callables that
    are handed to [wrap].  [level] is [kw.pop('level', 1)]. *)
Definition log_capture (names : list name) (level : option Z) : M oid :=
  __init__ (match names with [] => AOther NNone | _ => ATuple names end)
           false (default 1 level).

(** ** Further scenarios *)

(** Two captures for the logger [a], the objects 1 (level 1) and 2 (level
    2), constructed without installing them, in the process [configured]. *)
Definition two_captures : world :=
  exec (__init__ (ATuple [NStr "a"]) false 2)
       (exec (__init__ (ATuple [NStr "a"]) false 1) configured).

(** A capture, the object 1, whose tuple of names holds a list. *)
Definition with_bad_name : world :=
  exec (__init__ (ATuple [NStr "a"; NList ["b"]]) false 1) configured.

(** * Verification *)

#[local] Set Warnings "-clear-no-such-hyp".

(** Stepping through a computation. *)
Lemma bind_returned {A B} (m : M A) (k : A → M B) w a w' :
  m w = (Returned a, w') → bind m k w = k a w'.
Proof. unfold bind. by intros ->. Qed.

Lemma bind_raised {A B} (m : M A) (k : A → M B) w e w' :
  m w = (Raised e, w') → bind m k w = (Raised e, w').
Proof. unfold bind. by intros ->. Qed.

Lemma deref_eq self w c : heap w !! self = Some c → deref self w = (Returned c, w).
Proof. unfold deref. by intros ->. Qed.

Lemma update_eq self f w c :
  heap w !! self = Some c →
  update self f w = (Returned tt, set_heap <[self := f c]> w).
Proof. intros Hc. unfold update. by rewrite (bind_returned _ _ _ _ _ (deref_eq _ _ _ Hc)). Qed.

Lemma getLogger_eq n k w : logger_key n = Some k → getLogger n w = (Returned k, w).
Proof. unfold getLogger. by intros ->. Qed.

Lemma subscript_eq {V} (d : gmap name V) n v w :
  d !! n = Some v → subscript d n w = (Returned v, w).
Proof. unfold subscript. by intros ->. Qed.

Ltac step_with H := erewrite bind_returned by (apply H; eauto); simpl.
Ltac step := erewrite bind_returned by (unfold gets, modify, ret; reflexivity); simpl.

Lemma install_channel_eq self n w :
  is_Some (heap w !! self) → hashable n →
  install_channel self n w = (Returned tt, swap_channel self w n).
Proof.
  intros [c Hc] [k Hk]. unfold install_channel, swap_channel. rewrite Hc, Hk.
  step_with getLogger_eq. step. step_with update_eq. step.
  erewrite bind_returned by (apply update_eq; simpl; apply lookup_insert_eq).
  erewrite bind_returned by (apply deref_eq; simpl; apply lookup_insert_eq).
  step. unfold set_handlers, modify, set_loggers, set_heap, get_logger. simpl.
  rewrite !lookup_insert_eq, !insert_insert_eq. reflexivity.
Qed.

Lemma uninstall_channel_eq self n w c :
  heap w !! self = Some c → restorable c n →
  uninstall_channel self n w = (Returned tt, restore_channel self c w n).
Proof.
  intros Hc ([k Hk] & [lg Hs]). unfold uninstall_channel, restore_channel.
  rewrite Hk, Hs. unfold saved_channel in Hs.
  destruct (oldlevels c !! n) as [lvl|] eqn:Hl; [|done].
  destruct (oldhandlers c !! n) as [hs|] eqn:Hh; [|done].
  injection Hs as <-.
  step_with getLogger_eq. step_with deref_eq. step_with @subscript_eq. step.
  step_with deref_eq. step_with @subscript_eq. step.
  unfold modify, set_loggers, get_logger. simpl.
  rewrite !lookup_insert_eq, !insert_insert_eq. reflexivity.
Qed.

Lemma swap_channel_heap self w n :
  is_Some (heap w !! self) → is_Some (heap (swap_channel self w n) !! self).
Proof.
  intros [c Hc]. unfold swap_channel. rewrite Hc.
  destruct (logger_key n); simpl; [rewrite lookup_insert_eq|]; eauto.
Qed.

Lemma for_each_install self ns w :
  is_Some (heap w !! self) → Forall hashable ns →
  for_each ns (install_channel self) w = (Returned tt, foldl (swap_channel self) w ns).
Proof.
  intros Hc Hns. revert w Hc.
  induction Hns as [|n ns Hn _ IH]; intros w Hc; simpl; [done|].
  erewrite bind_returned by (by apply install_channel_eq).
  apply IH. by apply swap_channel_heap.
Qed.

Lemma restore_channel_heap self c w n : heap (restore_channel self c w n) = heap w.
Proof. unfold restore_channel. by repeat case_match. Qed.

Lemma for_each_uninstall self c ns w :
  heap w !! self = Some c → Forall (restorable c) ns →
  for_each ns (uninstall_channel self) w
  = (Returned tt, foldl (restore_channel self c) w ns).
Proof.
  intros Hc Hns. revert w Hc.
  induction Hns as [|n ns Hn _ IH]; intros w Hc; simpl; [done|].
  erewrite bind_returned by (by eapply uninstall_channel_eq).
  apply IH. by rewrite restore_channel_heap.
Qed.

Lemma install_eq self w c :
  heap w !! self = Some c → Forall hashable (names c) →
  install self w = (Returned tt, register self (foldl (swap_channel self) w (names c))).
Proof.
  intros Hc Hns. unfold install. step_with deref_eq.
  erewrite bind_returned by (apply for_each_install; eauto).
  step. step. unfold register. simpl.
  by destruct (atexit_setup _).
Qed.

Lemma uninstall_eq self w c :
  self ∈ instances w → heap w !! self = Some c → Forall (restorable c) (names c) →
  uninstall self w
  = (Returned tt,
     set_instances (λ s, s ∖ {[self]}) (foldl (restore_channel self c) w (names c))).
Proof.
  intros Hin Hc Hns. unfold uninstall. step. rewrite bool_decide_eq_true_2 by done.
  step_with deref_eq.
  erewrite bind_returned by (by apply for_each_uninstall). done.
Qed.

Lemma uninstall_unregistered self w :
  self ∉ instances w → uninstall self w = (Returned tt, w).
Proof.
  intros Hin. unfold uninstall. step. by rewrite bool_decide_eq_false_2.
Qed.

(** ** What the loop of [install] leaves behind *)

Lemma saved_channel_insert c n lg :
  saved_channel (mkLogCapture (names c) (level c)
                   (<[n := logger_level lg]> (oldlevels c))
                   (<[n := logger_handlers lg]> (oldhandlers c)) (records c)) n
  = Some lg.
Proof. unfold saved_channel. simpl. rewrite !lookup_insert_eq. by destruct lg. Qed.

Lemma saved_channel_insert_ne c n n' l h :
  n ≠ n' →
  saved_channel (mkLogCapture (names c) (level c)
                   (<[n := l]> (oldlevels c)) (<[n := h]> (oldhandlers c)) (records c)) n'
  = saved_channel c n'.
Proof. intros Hne. unfold saved_channel. simpl. by rewrite !lookup_insert_ne. Qed.

Lemma swap_fold_frame self ns w :
  let w' := foldl (swap_channel self) w ns in
  next_oid w' = next_oid w ∧ instances w' = instances w ∧
  atexit_setup w' = atexit_setup w ∧ atexit_hooks w' = atexit_hooks w ∧
  _handlers w' = _handlers w ∧ _handlerList w' = _handlerList w.
Proof.
  revert w. induction ns as [|n ns IH]; intros w; simpl; [done|].
  destruct (IH (swap_channel self w n)) as (-> & -> & -> & -> & -> & ->).
  unfold swap_channel. by repeat case_match.
Qed.

Lemma swap_fold_heap_ne self ns w j :
  j ≠ self → heap (foldl (swap_channel self) w ns) !! j = heap w !! j.
Proof.
  intros Hj. revert w. induction ns as [|n ns IH]; intros w; simpl; [done|].
  rewrite IH. unfold swap_channel. repeat case_match; simpl; try done.
  by rewrite lookup_insert_ne.
Qed.

Lemma swap_fold_loggers_ne self ns w k :
  k ∉ channels ns → loggers (foldl (swap_channel self) w ns) !! k = loggers w !! k.
Proof.
  revert w. induction ns as [|n ns IH]; intros w Hk; simpl; [done|].
  unfold channels in *. simpl in Hk.
  destruct (logger_key n) as [k'|] eqn:Hn.
  - apply not_elem_of_cons in Hk as [Hne Hk]. rewrite IH by done.
    unfold swap_channel. rewrite Hn. case_match; simpl; [|done].
    by rewrite lookup_insert_ne.
  - rewrite IH by done. unfold swap_channel. rewrite Hn. by case_match.
Qed.

(** The instance keeps its names, level and records, keeps what it had
    saved under other names, and has saved something under every name the
    loop went through. *)
Lemma swap_fold_self self ns w c :
  heap w !! self = Some c →
  ∃ c', heap (foldl (swap_channel self) w ns) !! self = Some c' ∧
        names c' = names c ∧ level c' = level c ∧ records c' = records c ∧
        (∀ n, n ∉ ns → saved_channel c' n = saved_channel c n) ∧
        (∀ n, n ∈ ns → hashable n → is_Some (saved_channel c' n)).
Proof.
  revert w c. induction ns as [|n ns IH]; intros w c Hc; simpl.
  { exists c. repeat split; try done. intros n Hn. by apply elem_of_nil in Hn. }
  destruct (logger_key n) as [k|] eqn:Hk.
  - set (c1 := mkLogCapture (names c) (level c)
                 (<[n := logger_level (get_logger w k)]> (oldlevels c))
                 (<[n := logger_handlers (get_logger w k)]> (oldhandlers c)) (records c)).
    assert (heap (swap_channel self w n) !! self = Some c1) as Hc1.
    { unfold swap_channel. rewrite Hc, Hk. simpl. by rewrite lookup_insert_eq. }
    destruct (IH _ _ Hc1) as (c' & Hc' & Hn' & Hl' & Hr' & Hout & Hin).
    exists c'. repeat split; try done.
    + intros n' Hn'0. apply not_elem_of_cons in Hn'0 as [Hne Hn'0].
      rewrite Hout by done. by apply saved_channel_insert_ne.
    + intros n' Hn'0 Hh. destruct (decide (n' ∈ ns)) as [|Hnot]; [by apply Hin|].
      apply elem_of_cons in Hn'0 as [->|]; [|done].
      rewrite Hout by done. unfold c1. rewrite saved_channel_insert. eauto.
  - assert (swap_channel self w n = w) as ->.
    { unfold swap_channel. rewrite Hk. by case_match. }
    destruct (IH _ _ Hc) as (c' & Hc' & Hn' & Hl' & Hr' & Hout & Hin).
    exists c'. repeat split; try done.
    + intros n' Hn'0. apply not_elem_of_cons in Hn'0 as [Hne Hn'0]. by apply Hout.
    + intros n' Hn'0 Hh. apply elem_of_cons in Hn'0 as [->|]; [|by apply Hin].
      destruct Hh as [? Hh]. congruence.
Qed.

(** Every logger the loop went through has the instance's level and the
    instance as its only handler. *)
Lemma swap_fold_loggers self ns w c k :
  heap w !! self = Some c → k ∈ channels ns →
  loggers (foldl (swap_channel self) w ns) !! k = Some (mkLogger (level c) [self]).
Proof.
  revert w c. induction ns as [|n ns IH]; intros w c Hc Hk; simpl.
  { by apply elem_of_nil in Hk. }
  unfold channels in Hk. simpl in Hk.
  destruct (logger_key n) as [k'|] eqn:Hn.
  - set (c1 := mkLogCapture (names c) (level c)
                 (<[n := logger_level (get_logger w k')]> (oldlevels c))
                 (<[n := logger_handlers (get_logger w k')]> (oldhandlers c)) (records c)).
    assert (heap (swap_channel self w n) !! self = Some c1) as Hc1.
    { unfold swap_channel. rewrite Hc, Hn. simpl. by rewrite lookup_insert_eq. }
    destruct (decide (k ∈ channels ns)) as [Hin|Hnot].
    + by rewrite (IH _ c1).
    + apply elem_of_cons in Hk as [->|]; [|done].
      rewrite swap_fold_loggers_ne by done.
      unfold swap_channel. rewrite Hc, Hn. simpl. by rewrite lookup_insert_eq.
  - assert (swap_channel self w n = w) as ->.
    { unfold swap_channel. rewrite Hn. by case_match. }
    by apply IH.
Qed.

(** When the names refer to distinct loggers, what is saved under a name is
    the configuration its logger had before the loop. *)
Lemma swap_fold_saved self ns w c n k :
  heap w !! self = Some c → NoDup (channels ns) →
  n ∈ ns → logger_key n = Some k →
  ∃ c', heap (foldl (swap_channel self) w ns) !! self = Some c' ∧
        saved_channel c' n = Some (get_logger w k).
Proof.
  revert w c. induction ns as [|n0 ns IH]; intros w c Hc Hnd Hin Hk; simpl.
  { by apply elem_of_nil in Hin. }
  unfold channels in Hnd. simpl in Hnd.
  destruct (logger_key n0) as [k0|] eqn:Hk0.
  - apply NoDup_cons in Hnd as [Hk0' Hnd].
    set (c1 := mkLogCapture (names c) (level c)
                 (<[n0 := logger_level (get_logger w k0)]> (oldlevels c))
                 (<[n0 := logger_handlers (get_logger w k0)]> (oldhandlers c)) (records c)).
    assert (heap (swap_channel self w n0) !! self = Some c1) as Hc1.
    { unfold swap_channel. rewrite Hc, Hk0. simpl. by rewrite lookup_insert_eq. }
    destruct (decide (n ∈ ns)) as [Hin'|Hnot].
    + destruct (IH _ _ Hc1 Hnd Hin' Hk) as (c' & Hc' & Hs).
      exists c'. split; [done|]. rewrite Hs. f_equal.
      assert (k ≠ k0) as Hne.
      { intros ->. apply Hk0'. apply list_elem_of_omap. eauto. }
      unfold get_logger, swap_channel. rewrite Hc, Hk0. simpl.
      by rewrite lookup_insert_ne.
    + apply elem_of_cons in Hin as [->|]; [|done].
      assert (k0 = k) as -> by congruence.
      destruct (swap_fold_self self ns _ _ Hc1) as (c' & Hc' & _ & _ & _ & Hout & _).
      exists c'. split; [done|]. rewrite Hout by done.
      unfold c1. by rewrite saved_channel_insert.
  - assert (swap_channel self w n0 = w) as ->.
    { unfold swap_channel. rewrite Hk0. by case_match. }
    apply elem_of_cons in Hin as [->|Hin]; [congruence|]. by apply (IH w c).
Qed.

(** ** What the loop of [uninstall] leaves behind *)

Lemma restore_fold_frame self c ns w :
  let w' := foldl (restore_channel self c) w ns in
  heap w' = heap w ∧ next_oid w' = next_oid w ∧ instances w' = instances w ∧
  atexit_setup w' = atexit_setup w ∧ atexit_hooks w' = atexit_hooks w.
Proof.
  revert w. induction ns as [|n ns IH]; intros w; simpl; [done|].
  destruct (IH (restore_channel self c w n)) as (-> & -> & -> & -> & ->).
  unfold restore_channel. by repeat case_match.
Qed.

Lemma restore_fold_loggers_ne self c ns w k :
  k ∉ channels ns →
  loggers (foldl (restore_channel self c) w ns) !! k = loggers w !! k.
Proof.
  revert w. induction ns as [|n ns IH]; intros w Hk; simpl; [done|].
  unfold channels in *. simpl in Hk. unfold restore_channel at 2.
  destruct (logger_key n) as [k'|] eqn:Hn; [|by rewrite IH].
  apply not_elem_of_cons in Hk as [Hne Hk]. rewrite IH by done.
  case_match; simpl; [|done]. by rewrite lookup_insert_ne.
Qed.

(** When the names refer to distinct loggers, each is left with what the
    instance had saved under its name. *)
Lemma restore_fold_loggers self c ns w n k lg :
  NoDup (channels ns) → n ∈ ns → logger_key n = Some k → saved_channel c n = Some lg →
  loggers (foldl (restore_channel self c) w ns) !! k = Some lg.
Proof.
  revert w. induction ns as [|n0 ns IH]; intros w Hnd Hin Hk Hs; simpl.
  { by apply elem_of_nil in Hin. }
  unfold channels in Hnd. simpl in Hnd.
  destruct (decide (n ∈ ns)) as [Hin'|Hnot].
  - apply IH; try done. destruct (logger_key n0); [|done].
    by apply NoDup_cons in Hnd as [_ ?].
  - apply elem_of_cons in Hin as [<-|]; [|done].
    rewrite Hk in Hnd. apply NoDup_cons in Hnd as [Hk' _].
    rewrite restore_fold_loggers_ne by done.
    unfold restore_channel. rewrite Hk, Hs. simpl. by rewrite lookup_insert_eq.
Qed.

(** ** Names that alone refer to a logger *)

Lemma referring_nil ns k : k ∉ channels ns → referring ns k = [].
Proof.
  intros Hk. unfold referring. induction ns as [|m ns IH]; [done|].
  unfold channels in *. simpl in Hk.
  destruct (decide (logger_key m = Some k)) as [Hm|Hm].
  - rewrite Hm in Hk. exfalso. apply Hk. by apply elem_of_cons; left.
  - rewrite filter_cons_False by done. apply IH.
    destruct (logger_key m); [|done]. by apply not_elem_of_cons in Hk as [_ ?].
Qed.

Lemma referring_channels ns n k : n ∈ referring ns k → k ∈ channels ns.
Proof.
  unfold referring. intros [Hk Hn]%list_elem_of_filter. apply list_elem_of_omap. eauto.
Qed.

Lemma sole_name_split ns n k :
  sole_name ns n k →
  ∃ ns1 ns2, ns = ns1 ++ n :: ns2 ∧ logger_key n = Some k ∧
             (k ∉ channels ns1) ∧ (k ∉ channels ns2).
Proof.
  unfold sole_name, referring. induction ns as [|m ns IH]; intros Hsole; [done|].
  destruct (decide (logger_key m = Some k)) as [Hm|Hm].
  - rewrite filter_cons_True in Hsole by done. injection Hsole as -> Hnil.
    exists [], ns. split; [done|]. split; [done|]. split; [by intros ?%elem_of_nil|].
    intros (n' & Hin & Hk)%list_elem_of_omap.
    eapply filter_nil_not_elem_of; [exact Hnil|exact Hk|exact Hin].
  - rewrite filter_cons_False in Hsole by done.
    destruct (IH Hsole) as (ns1 & ns2 & -> & Hk & H1 & H2).
    exists (m :: ns1), ns2. split; [done|]. split; [done|]. split; [|done].
    unfold channels in *. simpl. destruct (logger_key m) as [k'|]; [|done].
    apply not_elem_of_cons. split; [congruence|done].
Qed.

Lemma sole_name_elem ns n k : sole_name ns n k → n ∈ ns ∧ logger_key n = Some k.
Proof.
  intros (ns1 & ns2 & -> & Hk & _)%sole_name_split. split; [|done].
  apply elem_of_app. right. by apply elem_of_cons; left.
Qed.

(** Among names that refer to distinct loggers, each is the sole name of
    its logger. *)
Lemma sole_name_NoDup ns n k :
  NoDup (channels ns) → n ∈ ns → logger_key n = Some k → sole_name ns n k.
Proof.
  unfold sole_name, referring. induction ns as [|m ns IH]; intros Hnd Hin Hk.
  { by apply elem_of_nil in Hin. }
  unfold channels in Hnd. simpl in Hnd.
  destruct (decide (logger_key m = Some k)) as [Hm|Hm].
  - rewrite Hm in Hnd. apply NoDup_cons in Hnd as [Hnot _].
    rewrite filter_cons_True by done. fold (referring ns k).
    rewrite referring_nil by done.
    apply elem_of_cons in Hin as [->|Hin]; [done|].
    exfalso. apply Hnot. apply list_elem_of_omap. eauto.
  - rewrite filter_cons_False by done.
    apply elem_of_cons in Hin as [->|Hin]; [done|]. apply IH; try done.
    destruct (logger_key m); [|done]. by apply NoDup_cons in Hnd as [_ ?].
Qed.

(** What is saved under the sole name of a logger is the configuration the
    logger had before the loop of [install]. *)
Lemma swap_fold_saved_sole self ns w c n k :
  heap w !! self = Some c → sole_name ns n k →
  ∃ c', heap (foldl (swap_channel self) w ns) !! self = Some c' ∧
        saved_channel c' n = Some (get_logger w k).
Proof.
  intros Hc (ns1 & ns2 & -> & Hk & H1 & H2)%sole_name_split.
  rewrite foldl_app. simpl.
  destruct (swap_fold_self self ns1 w c Hc) as (c1 & Hc1 & _).
  set (w1 := foldl (swap_channel self) w ns1) in *.
  assert (get_logger w1 k = get_logger w k) as Hsame.
  { unfold get_logger, w1. by rewrite swap_fold_loggers_ne. }
  set (c2 := mkLogCapture (names c1) (level c1)
               (<[n := logger_level (get_logger w1 k)]> (oldlevels c1))
               (<[n := logger_handlers (get_logger w1 k)]> (oldhandlers c1)) (records c1)).
  assert (heap (swap_channel self w1 n) !! self = Some c2) as Hc2.
  { unfold swap_channel. rewrite Hc1, Hk. simpl. by rewrite lookup_insert_eq. }
  destruct (swap_fold_self self ns2 _ _ Hc2) as (c' & Hc' & _ & _ & _ & Hout & _).
  exists c'. split; [done|]. rewrite Hout.
  - unfold c2. by rewrite saved_channel_insert, Hsame.
  - intros Hin. apply H2. apply list_elem_of_omap. eauto.
Qed.

(** The logger of a sole name is left with what the instance had saved
    under that name. *)
Lemma restore_fold_loggers_sole self c ns w n k lg :
  sole_name ns n k → saved_channel c n = Some lg →
  loggers (foldl (restore_channel self c) w ns) !! k = Some lg.
Proof.
  intros (ns1 & ns2 & -> & Hk & H1 & H2)%sole_name_split Hs.
  rewrite foldl_app. simpl. rewrite restore_fold_loggers_ne by done.
  unfold restore_channel at 1. rewrite Hk, Hs. simpl. by rewrite lookup_insert_eq.
Qed.

Lemma register_frame self w :
  loggers (register self w) = loggers w ∧ heap (register self w) = heap w ∧
  next_oid (register self w) = next_oid w ∧
  instances (register self w) = {[self]} ∪ instances w ∧
  _handlers (register self w) = _handlers w ∧
  _handlerList (register self w) = _handlerList w.
Proof. unfold register. simpl. by destruct (atexit_setup w). Qed.

(** ** install() followed by uninstall() *)

(** After [install] the instance can be uninstalled: it is registered and has
    saved a configuration under each of its names. *)
Lemma install_restorable self w c :
  heap w !! self = Some c → Forall hashable (names c) →
  ∃ c', heap (exec (install self) w) !! self = Some c' ∧
        names c' = names c ∧ level c' = level c ∧ records c' = records c ∧
        Forall (restorable c') (names c').
Proof.
  intros Hc Hns. unfold exec. rewrite (install_eq _ _ _ Hc Hns). simpl.
  destruct (register_frame self (foldl (swap_channel self) w (names c)))
    as (_ & -> & _).
  destruct (swap_fold_self self (names c) _ _ Hc) as (c' & Hc' & Hn & Hl & Hr & _ & Hin).
  exists c'. repeat split; try done. rewrite Hn.
  apply Forall_forall. intros n Hn'. split; [|apply Hin; try done];
    by eapply Forall_forall in Hns.
Qed.

(** The round trip, for names that refer to distinct loggers: every logger
    of the framework is configured as before. *)
Lemma install_uninstall self w c :
  heap w !! self = Some c → Forall hashable (names c) → NoDup (channels (names c)) →
  eval (install self) w = Returned tt ∧
  eval (uninstall self) (exec (install self) w) = Returned tt ∧
  ∀ k, get_logger (exec (uninstall self) (exec (install self) w)) k = get_logger w k.
Proof.
  intros Hc Hns Hnd.
  destruct (install_restorable _ _ _ Hc Hns) as (c' & Hc' & Hn & _ & _ & Hres).
  unfold eval, exec in *. rewrite (install_eq _ _ _ Hc Hns) in *. simpl in *.
  set (w1 := register self (foldl (swap_channel self) w (names c))) in *.
  destruct (register_frame self (foldl (swap_channel self) w (names c)))
    as (Hlog & Hheap & _ & Hinst & _). fold w1 in Hlog, Hheap, Hinst.
  assert (self ∈ instances w1) as Hreg.
  { rewrite Hinst. apply elem_of_union_l. by apply elem_of_singleton. }
  rewrite (uninstall_eq _ _ _ Hreg Hc' Hres). simpl. repeat split.
  intros k. unfold get_logger at 1. simpl. rewrite Hn.
  destruct (decide (k ∈ channels (names c))) as [Hk|Hk].
  - apply list_elem_of_omap in Hk as (n & Hin & Hkey).
    destruct (swap_fold_saved self _ _ _ _ _ Hc Hnd Hin Hkey) as (c'' & Hc'' & Hs).
    rewrite <- Hheap in Hc''. rewrite Hc' in Hc''. injection Hc'' as <-.
    by rewrite (restore_fold_loggers _ _ _ _ _ _ _ Hnd Hin Hkey Hs).
  - rewrite restore_fold_loggers_ne, Hlog, swap_fold_loggers_ne by done. done.
Qed.

(** ** check() *)

Lemma first_divergence_none k xs ys : first_divergence k xs ys = None ↔ xs = ys.
Proof.
  revert k ys. induction xs as [|x xs IH]; intros k [|y ys]; simpl; try done.
  case_decide as Hxy.
  - subst. rewrite IH. split; [by intros ->|by intros [=]].
  - split; [done|]. intros [=]. done.
Qed.

Lemma first_divergence_some k xs ys m :
  first_divergence k xs ys = Some m →
  ∃ j : nat, m = Mismatch (k + j) (xs !! j) (ys !! j) ∧ xs !! j ≠ ys !! j ∧
             ∀ j' : nat, (j' < j)%nat → xs !! j' = ys !! j'.
Proof.
  revert k ys. induction xs as [|x xs IH]; intros k [|y ys]; simpl; try done.
  - intros [= <-]. exists 0%nat. rewrite Nat.add_0_r. repeat split; [done|lia].
  - intros [= <-]. exists 0%nat. rewrite Nat.add_0_r. repeat split; [done|lia].
  - case_decide as Hxy.
    + subst. intros (j & -> & Hne & Hlt)%IH. exists (S j).
      replace (k + S j)%nat with (S k + j)%nat by lia. repeat split; [done|].
      intros [|j'] ?; simpl; [done|]. apply Hlt. lia.
    + intros [= <-]. exists 0%nat. rewrite Nat.add_0_r. simpl.
      repeat split; [congruence|lia].
Qed.

Lemma actual_eq σ self w c :
  heap w !! self = Some c → actual σ self w = (Returned (entry σ <$> records c), w).
Proof. intros Hc. unfold actual. by step_with deref_eq. Qed.

Lemma actual_returned σ self w acts :
  eval (actual σ self) w = Returned acts →
  ∃ c, heap w !! self = Some c ∧ acts = entry σ <$> records c.
Proof.
  unfold eval. destruct (heap w !! self) as [c|] eqn:Hc.
  - rewrite (actual_eq _ _ _ _ Hc). simpl. intros [= <-]. eauto.
  - unfold actual. erewrite bind_raised; [done|]. unfold deref. by rewrite Hc.
Qed.

(** C1: [check] returns (with Python's [None]) exactly when the
    expected sequence equals the sequence of triples that [actual()]
    produces; when the two differ, in length or in any element, it raises the
    assertion error of [compare], which names the first index where they
    differ and the element each sequence has there.  In both cases the state
    is left as it was. *)
Theorem check_succeeds_iff_equal σ self w acts expected :
  eval (actual σ self) w = Returned acts →
  (check σ self expected w = (Returned tt, w) ↔ expected = acts) ∧
  (expected ≠ acts →
   ∃ j : nat,
     check σ self expected w
     = (Raised (AssertionError (Mismatch j (expected !! j) (acts !! j))), w) ∧
     expected !! j ≠ acts !! j ∧
     ∀ j' : nat, (j' < j)%nat → expected !! j' = acts !! j').
Proof.
  intros (c & Hc & ->)%actual_returned. unfold check.
  erewrite bind_returned by (by apply actual_eq). unfold compare.
  destruct (first_divergence 0 expected (entry σ <$> records c)) as [m|] eqn:Hd.
  - split.
    + split; [done|]. intros Heq. apply (first_divergence_none 0) in Heq. congruence.
    + intros _. apply first_divergence_some in Hd as (j & -> & Hne & Hlt).
      exists j. done.
  - apply first_divergence_none in Hd. split; [done|]. done.
Qed.

(** ** emit(), clear() and actual() *)


Lemma set_heap_insert_insert self c c' w :
  set_heap <[self := c']> (set_heap <[self := c]> w) = set_heap <[self := c']> w.
Proof. unfold set_heap. simpl. by rewrite insert_insert_eq. Qed.

Lemma emit_eq self r w c :
  heap w !! self = Some c →
  emit self r w = (Returned tt, set_heap <[self := with_records (λ rs, rs ++ [r]) c]> w).
Proof. apply update_eq. Qed.

Lemma clear_eq self w c :
  heap w !! self = Some c →
  clear self w = (Returned tt, set_heap <[self := with_records (λ _, []) c]> w).
Proof. apply update_eq. Qed.



(** ** The message of an entry is rendered when it is read *)

Lemma getMessage_ext σ σ' r :
  (∀ a, a ∈ args r → σ' !! a = σ !! a) → getMessage σ' r = getMessage σ r.
Proof.
  unfold getMessage, args. induction (rec_msg r) as [|p ps IH]; intros Hag; simpl; [done|].
  rewrite IH.
  - f_equal. destruct p as [s|a]; simpl; [done|]. unfold str_of.
    rewrite Hag; [done|]. simpl. apply elem_of_cons. by left.
  - intros a Ha. apply Hag. destruct p; simpl; [done|]. apply elem_of_cons. by right.
Qed.

(** C3, as amended: [emit] stores the record itself, with its message
    template and the references to its argument objects, and renders
    nothing.  The message is computed each time [actual()] (and through it
    [check()] and the textual summary) reads the entry, from the argument
    objects as they are then.  It is the message that capture-time rendering
    would have given whenever the argument objects of the record have not
    been mutated since. *)
Theorem message_rendered_when_read σ σ' self w c r :
  heap w !! self = Some c →
  let w' := exec (emit self r) w in
  records <$> heap w' !! self = Some (records c ++ [r]) ∧
  eval (actual σ' self) w'
  = Returned ((entry σ' <$> records c) ++ [(rec_name r, rec_levelname r, getMessage σ' r)]) ∧
  ((∀ a, a ∈ args r → σ' !! a = σ !! a) →
   eval (actual σ' self) w'
   = Returned ((entry σ' <$> records c) ++ [(rec_name r, rec_levelname r, getMessage σ r)])).
Proof.
  intros Hc. unfold eval, exec. rewrite (emit_eq _ _ _ _ Hc). simpl.
  rewrite lookup_insert_eq. simpl. split; [done|].
  erewrite actual_eq by (simpl; apply lookup_insert_eq).
  cbn [fst with_records records]. rewrite fmap_app.
  change (entry σ' <$> [r]) with [(rec_name r, rec_levelname r, getMessage σ' r)].
  split; [done|].
  intros Hag. by rewrite (getMessage_ext σ σ' r Hag).
Qed.

(** ** clear() *)

(** C8: [clear()] empties the record buffer, so that [actual()] yields
    nothing and [check()] without expected entries succeeds, and changes
    nothing else: the registry, the loggers' levels and handlers, the rest
    of the process-wide state, the instance's names, level, saved levels and
    saved handlers, and every other instance are as before, whether the
    instance is installed or not. *)
Theorem clear_only_empties_buffer σ self w c :
  heap w !! self = Some c →
  let w' := exec (clear self) w in
  eval (clear self) w = Returned tt ∧
  eval (actual σ self) w' = Returned [] ∧
  eval (check σ self []) w' = Returned tt ∧
  heap w' !! self
  = Some (mkLogCapture (names c) (level c) (oldlevels c) (oldhandlers c) []) ∧
  (∀ j, j ≠ self → heap w' !! j = heap w !! j) ∧
  instances w' = instances w ∧ loggers w' = loggers w ∧ next_oid w' = next_oid w ∧
  atexit_setup w' = atexit_setup w ∧ atexit_hooks w' = atexit_hooks w ∧
  _handlers w' = _handlers w ∧ _handlerList w' = _handlerList w.
Proof.
  intros Hc. unfold eval, exec. rewrite (clear_eq _ _ _ Hc). simpl.
  assert (heap (set_heap <[self := with_records (λ _, []) c]> w) !! self
          = Some (with_records (λ _, []) c)) as Hc1 by (simpl; apply lookup_insert_eq).
  repeat split.
  - by rewrite (actual_eq _ _ _ _ Hc1).
  - unfold check. by erewrite bind_returned by (by apply actual_eq).
  - by rewrite lookup_insert_eq.
  - intros j Hj. by rewrite lookup_insert_ne.
Qed.

(** ** The constructor *)

Lemma init_eq a b lvl w :
  __init__ a b lvl w
  = if b then
      match install (next_oid w) (created a lvl w) with
      | (Returned _, w') => (Returned (next_oid w), w')
      | (Raised e, w') => (Raised e, w')
      end
    else (Returned (next_oid w), created a lvl w).
Proof.
  unfold __init__. step. step. step.
  erewrite bind_returned by (apply clear_eq; simpl; apply lookup_insert_eq).
  rewrite set_heap_insert_insert.
  change (set_heap <[next_oid w := _]> (allocate w)) with (created a lvl w).
  destruct b; [|done]. unfold bind at 1.
  destruct (install (next_oid w) (created a lvl w)) as [[[]|e] w']; done.
Qed.

Lemma created_heap a lvl w :
  heap (created a lvl w) !! next_oid w = Some (mkLogCapture (names_of a) lvl ∅ ∅ []).
Proof. unfold created. simpl. apply lookup_insert_eq. Qed.

Lemma install_channel_unhashable self n w :
  logger_key n = None → install_channel self n w = (Raised TypeError, w).
Proof.
  intros Hn. unfold install_channel. erewrite bind_raised; [done|].
  unfold getLogger. by rewrite Hn.
Qed.

(** Whatever the names are, the loop of [install] has gone through a prefix
    of them when it ends; it raises only at a name that is no logger name. *)
Lemma for_each_install_prefix self ns w :
  is_Some (heap w !! self) →
  ∃ o ns', ns' `prefix_of` ns ∧
    for_each ns (install_channel self) w = (o, foldl (swap_channel self) w ns') ∧
    ((o = Returned tt ∧ ns' = ns ∧ Forall hashable ns) ∨
     (o = Raised TypeError ∧ ¬ Forall hashable ns)).
Proof.
  revert w. induction ns as [|n ns IH]; intros w Hc; simpl.
  { exists (Returned tt), []. split; [done|]. split; [done|]. by left. }
  destruct (logger_key n) as [k|] eqn:Hk.
  - erewrite bind_returned by (apply install_channel_eq; [done|by exists k]).
    destruct (IH (swap_channel self w n)) as (o & ns' & Hpre & -> & Ho);
      [by apply swap_channel_heap|].
    exists o, (n :: ns'). split; [by apply prefix_cons|]. split; [done|].
    destruct Ho as [(-> & -> & Hall)|[-> Hno]]; [left|right].
    + repeat split. constructor; [by exists k|done].
    + split; [done|]. intros Hall. apply Hno. by eapply Forall_inv_tail.
  - erewrite bind_raised by (by apply install_channel_unhashable).
    exists (Raised TypeError), []. split; [apply prefix_nil|]. split; [done|].
    right. split; [done|]. intros Hall. apply Forall_inv in Hall as [? ?]. congruence.
Qed.

Lemma install_general self w c :
  heap w !! self = Some c →
  ∃ o ns', ns' `prefix_of` names c ∧
    ((o = Returned tt ∧ Forall hashable (names c) ∧
      install self w = (o, register self (foldl (swap_channel self) w (names c)))) ∨
     (o = Raised TypeError ∧ ¬ Forall hashable (names c) ∧
      install self w = (o, foldl (swap_channel self) w ns'))).
Proof.
  intros Hc.
  destruct (for_each_install_prefix self (names c) w) as (o & ns' & Hpre & Hrun & Ho);
    [eauto|].
  exists o, ns'. split; [done|].
  destruct Ho as [(-> & -> & Hall)|[-> Hno]].
  - left. split; [done|]. split; [done|]. by apply install_eq.
  - right. split; [done|]. split; [done|].
    unfold install. step_with deref_eq. by erewrite bind_raised.
Qed.

Lemma init_installed a lvl w :
  Forall hashable (names_of a) →
  __init__ a true lvl w
  = (Returned (next_oid w),
     register (next_oid w)
       (foldl (swap_channel (next_oid w)) (created a lvl w) (names_of a))).
Proof.
  intros Hall. rewrite init_eq.
  by rewrite (install_eq _ _ _ (created_heap a lvl w) Hall).
Qed.

Lemma init_names a b lvl w :
  names <$> heap (exec (__init__ a b lvl) w) !! next_oid w = Some (names_of a).
Proof.
  unfold exec. rewrite init_eq. destruct b; simpl; [|by rewrite lookup_insert_eq].
  destruct (install_general _ _ _ (created_heap a lvl w))
    as (o & ns' & _ & [(-> & _ & ->)|(-> & _ & ->)]); simpl.
  - destruct (register_frame (next_oid w)
      (foldl (swap_channel (next_oid w)) (created a lvl w) (names_of a))) as (_ & -> & _).
    destruct (swap_fold_self (next_oid w) (names_of a) _ _ (created_heap a lvl w))
      as (c' & -> & Hn & _). simpl. by rewrite Hn.
  - destruct (swap_fold_self (next_oid w) ns' _ _ (created_heap a lvl w))
      as (c' & -> & Hn & _). simpl. by rewrite Hn.
Qed.

Lemma install_unhashable_first self w c n ns :
  heap w !! self = Some c → names c = n :: ns → logger_key n = None →
  install self w = (Raised TypeError, w).
Proof.
  intros Hc Hn Hk. unfold install.
  erewrite bind_returned by (by apply deref_eq). rewrite Hn.
  erewrite bind_raised; [done|]. simpl.
  erewrite bind_raised; [done|]. by apply install_channel_unhashable.
Qed.

(** C10: the constructor keeps a tuple of names as it is and wraps any other
    argument into a one-element tuple.  With the default, [None], the only
    name is the root logger's, and installing intercepts the root logger.  A
    list of names becomes the single element of [names]: the list as a whole
    is used as one key, which the framework refuses with [TypeError] when
    the instance is installed, and no logger, named in the list or not, is
    touched and nothing is registered.  The names of a tuple are each
    intercepted. *)
Theorem names_wrapped_unless_tuple w lvl :
  let self := next_oid w in
  (∀ v, names_of (AOther v) = [v]) ∧
  (∀ t, names_of (ATuple t) = t) ∧
  (∀ a b, names <$> heap (exec (__init__ a b lvl) w) !! self = Some (names_of a)) ∧
  (names_of default_names = [NNone] ∧ channels [NNone] = [""] ∧
   eval (__init__ default_names default_install lvl) w = Returned self ∧
   get_logger (exec (__init__ default_names default_install lvl) w) "" = mkLogger lvl [self]) ∧
  (∀ l b,
     names <$> heap (exec (__init__ (AOther (NList l)) b lvl) w) !! self = Some [NList l] ∧
     eval (__init__ (AOther (NList l)) b lvl) w
     = (if b then Raised TypeError else Returned self) ∧
     loggers (exec (__init__ (AOther (NList l)) b lvl) w) = loggers w ∧
     instances (exec (__init__ (AOther (NList l)) b lvl) w) = instances w) ∧
  (∀ t, Forall hashable t →
     eval (__init__ (ATuple t) true lvl) w = Returned self ∧
     ∀ k, k ∈ channels t →
          get_logger (exec (__init__ (ATuple t) true lvl) w) k = mkLogger lvl [self]).
Proof.
  intros self. subst self. split; [done|]. split; [done|].
  split; [intros a b; apply init_names|].
  assert (∀ a, Forall hashable (names_of a) →
    eval (__init__ a true lvl) w = Returned (next_oid w) ∧
    ∀ k, k ∈ channels (names_of a) →
         get_logger (exec (__init__ a true lvl) w) k = mkLogger lvl [next_oid w]) as Htuple.
  { intros a Hall. unfold eval, exec. rewrite (init_installed _ _ _ Hall). cbn [fst snd].
    split; [done|]. intros k Hk. unfold get_logger.
    destruct (register_frame (next_oid w)
      (foldl (swap_channel (next_oid w)) (created a lvl w) (names_of a))) as (-> & _).
    by rewrite (swap_fold_loggers _ _ _ _ _ (created_heap a lvl w) Hk). }
  split; [|split].
  - destruct (Htuple default_names) as [Hev Hlog].
    { repeat constructor. by exists "". }
    repeat split; [done|]. apply Hlog. simpl. apply elem_of_cons. by left.
  - intros l b. split; [apply (init_names (AOther (NList l)))|].
    unfold eval, exec. rewrite init_eq. destruct b; [|done].
    by rewrite (install_unhashable_first _ _ _ (NList l) [] (created_heap _ lvl w)).
  - intros t Hall. apply (Htuple (ATuple t) Hall).
Qed.

(** ** uninstall() *)

Lemma restore_fold_some self c ns w k :
  Forall (restorable c) ns → k ∈ channels ns →
  ∃ n lg, n ∈ ns ∧ logger_key n = Some k ∧ saved_channel c n = Some lg ∧
          loggers (foldl (restore_channel self c) w ns) !! k = Some lg.
Proof.
  intros Hall. revert w. induction Hall as [|n0 ns Hn0 Hall IH]; intros w Hk; simpl.
  { by apply elem_of_nil in Hk. }
  destruct (decide (k ∈ channels ns)) as [Hin|Hnot].
  - destruct (IH (restore_channel self c w n0) Hin) as (n & lg & ? & ? & ? & ?).
    exists n, lg. repeat split; try done. by apply elem_of_cons; right.
  - destruct Hn0 as [[k0 Hk0] [lg Hlg]].
    unfold channels in Hk. simpl in Hk. rewrite Hk0 in Hk.
    apply elem_of_cons in Hk as [->|]; [|done].
    exists n0, lg. repeat split; try done; [by apply elem_of_cons; left|].
    rewrite restore_fold_loggers_ne by done.
    unfold restore_channel. rewrite Hk0, Hlg. simpl. by rewrite lookup_insert_eq.
Qed.

(** What one call of [uninstall] does. *)
Lemma uninstall_spec self w :
  (self ∈ instances w → installed_ok w self) →
  ∃ w', uninstall self w = (Returned tt, w') ∧
    heap w' = heap w ∧ instances w' = instances w ∖ {[self]} ∧
    next_oid w' = next_oid w ∧
    (self ∉ instances w → w' = w) ∧
    (∀ k, ¬ owns w self k → loggers w' !! k = loggers w !! k) ∧
    (∀ k, owns w self k →
       ∃ c n lg, heap w !! self = Some c ∧ n ∈ names c ∧ logger_key n = Some k ∧
                 saved_channel c n = Some lg ∧ loggers w' !! k = Some lg) ∧
    (∀ c n k lg, self ∈ instances w → heap w !! self = Some c →
       sole_name (names c) n k →
       saved_channel c n = Some lg → loggers w' !! k = Some lg).
Proof.
  intros Hok. destruct (decide (self ∈ instances w)) as [Hin|Hout].
  - destruct (Hok Hin) as (c & Hc & Hall).
    eexists. split; [by apply uninstall_eq|]. simpl.
    destruct (restore_fold_frame self c (names c) w) as (Hh & Hn & Hi & _).
    rewrite Hh, Hn, Hi. repeat split; try done.
    + intros k Hk. apply restore_fold_loggers_ne. intros Hin'. apply Hk.
      split; [done|]. eauto.
    + intros k (_ & c' & Hc' & Hk). rewrite Hc in Hc'. injection Hc' as <-.
      destruct (restore_fold_some self c (names c) w k Hall Hk) as (n & lg & ? & ? & ? & ?).
      exists c, n, lg. done.
    + intros c' n k lg _ Hc' Hsole Hs. rewrite Hc in Hc'. injection Hc' as <-.
      by eapply restore_fold_loggers_sole.
  - exists w. split; [by apply uninstall_unregistered|]. repeat split; try done.
    + set_solver.
    + intros k [? _]. done.
Qed.

(** C5: [uninstall()] returns, leaves the instance out of the registry, and
    a second call right after it returns as well and changes nothing at all:
    the registry, every logger's level and handlers and the rest of the
    state are as the first call left them.  On an instance that is not in
    the registry the first call already changes nothing. *)
Theorem uninstall_idempotent self w :
  (self ∈ instances w → installed_ok w self) →
  let w1 := exec (uninstall self) w in
  eval (uninstall self) w = Returned tt ∧
  instances w1 = instances w ∖ {[self]} ∧
  uninstall self w1 = (Returned tt, w1) ∧
  (self ∉ instances w → uninstall self w = (Returned tt, w)).
Proof.
  intros Hok. destruct (uninstall_spec self w Hok) as (w' & Hrun & _ & Hinst & _ & Hno & _).
  unfold eval, exec. rewrite Hrun. simpl. repeat split; try done.
  - apply uninstall_unregistered. rewrite Hinst. set_solver.
  - intros Hout. by rewrite (Hno Hout).
Qed.

(** ** uninstall_all() *)

Lemma owns_after_uninstall w w' i0 j k :
  heap w' = heap w → instances w' = instances w ∖ {[i0]} → j ≠ i0 →
  owns w' j k ↔ owns w j k.
Proof.
  intros Hh Hi Hne. unfold owns. rewrite Hh, Hi.
  rewrite elem_of_difference, elem_of_singleton. tauto.
Qed.

Lemma owns_dec w i k : owns w i k ∨ ¬ owns w i k.
Proof.
  unfold owns. destruct (decide (i ∈ instances w)) as [Hi|Hi]; [|right; tauto].
  destruct (heap w !! i) as [c|] eqn:Hc; [|right; intros (_ & c & ? & _); done].
  destruct (decide (k ∈ channels (names c))) as [Hk|Hk]; [left; eauto|].
  right. intros (_ & c' & [= <-] & ?). done.
Qed.

(** Uninstalling the instances of a list, one after the other. *)
Lemma uninstall_list l w :
  NoDup l → (∀ i, i ∈ instances w → installed_ok w i) →
  ∃ w', for_each l uninstall w = (Returned tt, w') ∧
    heap w' = heap w ∧ instances w' = instances w ∖ list_to_set l ∧
    next_oid w' = next_oid w ∧
    (∀ k, (∀ i, i ∈ l → ¬ owns w i k) → loggers w' !! k = loggers w !! k) ∧
    (∀ k, (∀ i, i ∈ l → ¬ owns w i k) ∨
          ∃ i c n lg, i ∈ l ∧ i ∈ instances w ∧ heap w !! i = Some c ∧ n ∈ names c ∧
                      logger_key n = Some k ∧ saved_channel c n = Some lg ∧
                      loggers w' !! k = Some lg) ∧
    (∀ i c n k lg, i ∈ l → i ∈ instances w → heap w !! i = Some c →
       sole_name (names c) n k →
       saved_channel c n = Some lg →
       (∀ j, j ∈ l → j ≠ i → ¬ owns w j k) → loggers w' !! k = Some lg).
Proof.
  intros Hnd. revert w. induction Hnd as [|i0 l Hi0 Hnd IH]; intros w Hok; simpl.
  { exists w. repeat split; try done.
    - set_solver.
    - intros k. left. intros i Hi. by apply elem_of_nil in Hi.
    - intros i c n k lg Hi. by apply elem_of_nil in Hi. }
  destruct (uninstall_spec i0 w (Hok i0))
    as (w1 & Hrun & Hh1 & Hi1 & Hn1 & _ & Hframe1 & Hsome1 & Hexact1).
  assert (∀ i, i ∈ instances w1 → installed_ok w1 i) as Hok1.
  { intros i Hi. unfold installed_ok. rewrite Hh1. apply Hok.
    rewrite Hi1 in Hi. set_solver. }
  destruct (IH w1 Hok1) as (w' & Hrun' & Hh & Hi & Hn & Hframe & Hsome & Hexact).
  assert (∀ j k, j ∈ l → owns w1 j k ↔ owns w j k) as Howns.
  { intros j k Hj. apply (owns_after_uninstall w w1 i0); try done. by intros ->. }
  exists w'. rewrite (bind_returned _ _ _ _ _ Hrun). split; [done|].
  split; [congruence|]. split; [rewrite Hi, Hi1; set_solver|]. split; [congruence|].
  split; [|split].
  - intros k Hk. rewrite Hframe, Hframe1; [done| |].
    + apply Hk. by apply elem_of_cons; left.
    + intros j Hj. rewrite Howns by done. apply Hk. by apply elem_of_cons; right.
  - intros k. destruct (Hsome k) as [Hnone|(i & c & n & lg & Hil & Hii & Hc & Hrest)].
    + destruct (owns_dec w i0 k) as [Hown|Hnot].
      * right. destruct (Hsome1 k Hown) as (c & n & lg & Hc & Hn' & Hk & Hs & Hl).
        exists i0, c, n, lg. repeat split; try done; [by apply elem_of_cons; left|by destruct Hown|].
        by rewrite Hframe.
      * left. intros i [->|Hi']%elem_of_cons; [done|].
        rewrite <- Howns by done. by apply Hnone.
    + right. exists i, c, n, lg. rewrite Hh1 in Hc. rewrite Hi1 in Hii.
      repeat split; try tauto; [by apply elem_of_cons; right|set_solver].
  - intros i c n k lg Hil Hii Hc Hsole Hs Hothers.
    apply elem_of_cons in Hil as [->|Hil].
    + rewrite Hframe.
      * by eapply Hexact1.
      * intros j Hj. rewrite Howns by done. apply Hothers; [by apply elem_of_cons; right|].
        by intros ->.
    + assert (i ≠ i0) as Hne by (by intros ->).
      eapply (Hexact i c n k lg); try done.
      * rewrite Hi1. set_solver.
      * by rewrite Hh1.
      * intros j Hj Hji. rewrite Howns by done. apply Hothers; [by apply elem_of_cons; right|done].
Qed.

(** C7: in whatever order the registry is walked, [uninstall_all()] returns
    and leaves the registry empty.  Every logger that a registered instance
    had among its channels is left with a level and a handler list that a
    registered instance had saved for it; it is the configuration saved by
    the instance itself for each logger that belongs to that instance alone
    and to one of its names alone (instances installed on disjoint channel
    sets).  Loggers that belong to no registered instance, and the
    instances' own attributes, are not changed. *)
Theorem uninstall_all_empties_registry w order :
  order ≡ₚ elements (instances w) →
  (∀ i, i ∈ instances w → installed_ok w i) →
  let w' := exec (uninstall_all_in order) w in
  uninstall_all w = uninstall_all_in (elements (instances w)) w ∧
  eval (uninstall_all_in order) w = Returned tt ∧
  instances w' = ∅ ∧
  heap w' = heap w ∧
  (∀ k, (∃ i, owns w i k) →
     ∃ i c n lg, i ∈ instances w ∧ heap w !! i = Some c ∧ n ∈ names c ∧
                 logger_key n = Some k ∧ saved_channel c n = Some lg ∧
                 get_logger w' k = lg) ∧
  (∀ i c n k lg, i ∈ instances w → heap w !! i = Some c →
     sole_name (names c) n k →
     saved_channel c n = Some lg →
     (∀ j, j ≠ i → ¬ owns w j k) → get_logger w' k = lg) ∧
  (∀ k, (∀ i, ¬ owns w i k) → loggers w' !! k = loggers w !! k).
Proof.
  intros Hperm Hok.
  assert (NoDup order) as Hnd by (rewrite Hperm; apply NoDup_elements).
  assert (∀ i, i ∈ order ↔ i ∈ instances w) as Hmem.
  { intros i. rewrite Hperm. apply elem_of_elements. }
  destruct (uninstall_list order w Hnd Hok)
    as (w' & Hrun & Hh & Hi & _ & Hframe & Hsome & Hexact).
  split; [done|].
  unfold uninstall_all_in, eval, exec. rewrite Hrun. simpl.
  split; [done|]. split; [|split; [done|split; [|split]]].
  - rewrite Hi. apply set_eq. intros i.
    rewrite elem_of_difference, elem_of_list_to_set, Hmem. set_solver.
  - intros k [i Hown]. destruct (Hsome k) as [Hnone|(i' & c & n & lg & Hil & Hrest)].
    + exfalso. apply (Hnone i); [|done]. apply Hmem. by destruct Hown.
    + exists i', c, n, lg. unfold get_logger.
      destruct Hrest as (? & ? & ? & ? & ? & ->). done.
  - intros i c n k lg Hii Hc Hsole Hs Hothers. unfold get_logger.
    rewrite (Hexact i c n k lg); try done; [by apply Hmem|].
    intros j _. apply Hothers.
  - intros k Hk. apply Hframe. intros i _. apply Hk.
Qed.

(** ** What [install] and [uninstall] do to the loggers *)

Lemma install_loggers self w c :
  heap w !! self = Some c → Forall hashable (names c) →
  (∀ k, k ∈ channels (names c) →
        loggers (exec (install self) w) !! k = Some (mkLogger (level c) [self])) ∧
  (∀ k, k ∉ channels (names c) → loggers (exec (install self) w) !! k = loggers w !! k).
Proof.
  intros Hc Hall. unfold exec. rewrite (install_eq _ _ _ Hc Hall). cbn [snd].
  destruct (register_frame self (foldl (swap_channel self) w (names c))) as (-> & _).
  split; intros k Hk.
  - by apply (swap_fold_loggers _ _ _ c).
  - by apply swap_fold_loggers_ne.
Qed.


Lemma get_logger_lookup w k lg : loggers w !! k = Some lg → get_logger w k = lg.
Proof. unfold get_logger. by intros ->. Qed.

Lemma get_logger_same w w' k : loggers w' !! k = loggers w !! k → get_logger w' k = get_logger w k.
Proof. unfold get_logger. by intros ->. Qed.

(** Uninstalling a registered instance whose names refer to distinct
    loggers: its loggers get what it has saved, the others stay. *)
Lemma uninstall_loggers self w c :
  self ∈ instances w → heap w !! self = Some c →
  Forall (restorable c) (names c) → NoDup (channels (names c)) →
  eval (uninstall self) w = Returned tt ∧
  heap (exec (uninstall self) w) = heap w ∧
  instances (exec (uninstall self) w) = instances w ∖ {[self]} ∧
  (∀ n k lg, n ∈ names c → logger_key n = Some k → saved_channel c n = Some lg →
             get_logger (exec (uninstall self) w) k = lg) ∧
  (∀ k, k ∉ channels (names c) →
        loggers (exec (uninstall self) w) !! k = loggers w !! k).
Proof.
  intros Hin Hc Hall Hnd.
  destruct (uninstall_spec self w) as (w' & Hrun & Hh & Hi & _ & _ & Hframe & _ & Hexact).
  { intros _. exists c. done. }
  unfold eval, exec. rewrite Hrun. cbn [fst snd]. repeat split; try done.
  - intros n k lg Hn Hk Hs. apply get_logger_lookup.
    apply (Hexact c n k lg); try done. by apply sole_name_NoDup.
  - intros k Hk. apply Hframe. intros (_ & c' & Hc' & Hk'). congruence.
Qed.

(** ** The registry along a history of calls *)

Lemma install_facts self w c :
  heap w !! self = Some c → Forall hashable (names c) →
  let w' := exec (install self) w in
  eval (install self) w = Returned tt ∧
  instances w' = {[self]} ∪ instances w ∧ next_oid w' = next_oid w ∧
  (∀ j, j ≠ self → heap w' !! j = heap w !! j) ∧
  ∃ c', heap w' !! self = Some c' ∧ names c' = names c ∧
        Forall (restorable c') (names c').
Proof.
  intros Hc Hall.
  destruct (install_restorable _ _ _ Hc Hall) as (c' & Hc' & Hn & _ & _ & Hres).
  unfold eval, exec in *. rewrite (install_eq _ _ _ Hc Hall) in *. cbn [fst snd] in *.
  destruct (register_frame self (foldl (swap_channel self) w (names c)))
    as (_ & Hh & Hnx & Hi & _).
  destruct (swap_fold_frame self (names c) w) as (Hnx' & Hi' & _).
  split; [done|]. split; [by rewrite Hi, Hi'|]. split; [by rewrite Hnx, Hnx'|].
  split; [|eauto]. intros j Hj. rewrite Hh. by apply swap_fold_heap_ne.
Qed.

Lemma installed_ok_heap w w' i :
  heap w' !! i = heap w !! i → installed_ok w i → installed_ok w' i.
Proof. unfold installed_ok. by intros ->. Qed.

Lemma record_call_snoc tr c :
  foldl record_call (mkHistory 0 ∅) (tr ++ [c])
  = record_call (foldl record_call (mkHistory 0 ∅) tr) c.
Proof. by rewrite foldl_app. Qed.

Lemma invariant_install tr w i :
  invariant tr w → is_Some (heap w !! i) →
  instances (exec (install i) w) = {[i]} ∪ instances w ∧
  next_oid (exec (install i) w) = next_oid w ∧
  (∀ j, is_Some (heap (exec (install i) w) !! j) ↔ (j < next_oid w)%nat) ∧
  (∀ j c, heap (exec (install i) w) !! j = Some c → Forall hashable (names c)) ∧
  (∀ j, j ∈ instances (exec (install i) w) → installed_ok (exec (install i) w) j).
Proof.
  intros (Hreg & Hnx & Hdom & Hty & Hok) [c Hc].
  destruct (install_facts i w c Hc (Hty _ _ Hc))
    as (_ & Hi & Hn & Hother & c' & Hc' & Hnames & Hres).
  split; [done|]. split; [done|]. split; [|split].
  - intros j. destruct (decide (j = i)) as [->|Hne].
    + rewrite Hc', <- Hdom, Hc. split; eauto.
    + by rewrite Hother, Hdom.
  - intros j cj. destruct (decide (j = i)) as [->|Hne].
    + rewrite Hc'. intros [= <-]. rewrite Hnames. by eapply Hty.
    + rewrite Hother by done. apply Hty.
  - intros j. rewrite Hi. destruct (decide (j = i)) as [->|Hne].
    + intros _. exists c'. done.
    + intros Hj. apply (installed_ok_heap w); [by apply Hother|].
      apply Hok. set_solver.
Qed.

Lemma invariant_uninstall tr w i :
  invariant tr w →
  instances (exec (uninstall i) w) = instances w ∖ {[i]} ∧
  next_oid (exec (uninstall i) w) = next_oid w ∧
  heap (exec (uninstall i) w) = heap w.
Proof.
  intros (_ & _ & _ & _ & Hok).
  destruct (uninstall_spec i w (Hok i)) as (w' & Hrun & Hh & Hi & Hn & _).
  unfold exec. by rewrite Hrun.
Qed.

Lemma invariant_update tr w i f c :
  invariant tr w → heap w !! i = Some c →
  names (f c) = names c → oldlevels (f c) = oldlevels c →
  oldhandlers (f c) = oldhandlers c →
  invariant tr (exec (update i f) w).
Proof.
  intros (Hreg & Hnx & Hdom & Hty & Hok) Hc Hn Hl Hh.
  unfold exec. rewrite (update_eq _ _ _ _ Hc). simpl.
  split; [done|]. split; [done|]. split; [|split]; simpl.
  - intros j. destruct (decide (j = i)) as [->|Hne].
    + rewrite lookup_insert_eq, <- Hdom, Hc. split; eauto.
    + by rewrite lookup_insert_ne.
  - intros j cj. destruct (decide (j = i)) as [->|Hne].
    + rewrite lookup_insert_eq. intros [= <-]. rewrite Hn. by eapply Hty.
    + rewrite lookup_insert_ne by done. apply Hty.
  - intros j Hj. destruct (Hok j Hj) as (cj & Hcj & Hres). unfold installed_ok. simpl.
    destruct (decide (j = i)) as [->|Hne].
    + rewrite lookup_insert_eq. exists (f c). split; [done|].
      rewrite Hc in Hcj. injection Hcj as <-. rewrite Hn.
      eapply Forall_impl; [exact Hres|]. intros n [? Hs]. split; [done|].
      unfold saved_channel in *. by rewrite Hl, Hh.
    + rewrite lookup_insert_ne by done. eauto.
Qed.

Lemma step_invariant tr w c w' :
  invariant tr w → well_typed c → step w c w' → invariant (tr ++ [c]) w'.
Proof.
  intros Hinv Hwt Hstep. pose proof Hinv as (Hreg & Hnx & Hdom & Hty & Hok).
  unfold currently_installed in Hreg.
  unfold invariant at 1, currently_installed. rewrite record_call_snoc.
  destruct Hstep as [w a b lvl|w i Hi|w i Hi|w order Hperm|w i Hi|w i r Hi|w i Hi|w i Hi];
    simpl in Hwt; cbn [record_call constructed installed].
  - (* the constructor *)
    rewrite <- Hreg, <- Hnx.
    assert (heap w !! next_oid w = None) as Hfresh.
    { apply eq_None_not_Some. rewrite Hdom. lia. }
    assert (∀ j, j ∈ instances w → j ≠ next_oid w) as Hold.
    { intros j Hj ->. destruct (Hok _ Hj) as (? & ? & _). congruence. }
    unfold exec. rewrite init_eq. destruct b.
    + destruct (install_facts _ _ _ (created_heap a lvl w) Hwt)
        as (Hev & Hi & Hn & Hother & c' & Hc' & Hnames & Hres).
      unfold eval, exec in *.
      destruct (install (next_oid w) (created a lvl w)) as [o w2]. simpl in *. subst o.
      simpl. split; [done|]. split; [done|]. split; [|split].
      * intros j. destruct (decide (j = next_oid w)) as [->|Hne].
        -- rewrite Hc', Hn. split; [lia|eauto].
        -- rewrite Hother, Hn by done. simpl. rewrite lookup_insert_ne by done.
           rewrite Hdom. lia.
      * intros j cj. destruct (decide (j = next_oid w)) as [->|Hne].
        -- rewrite Hc'. intros [= <-]. by rewrite Hnames.
        -- rewrite Hother by done. simpl. rewrite lookup_insert_ne by done. apply Hty.
      * intros j. rewrite Hi. simpl. intros [->%elem_of_singleton|Hj]%elem_of_union.
        -- exists c'. done.
        -- apply (installed_ok_heap w); [|by apply Hok].
           rewrite Hother by (by apply Hold). simpl. rewrite lookup_insert_ne; [done|].
           intros Heq. by apply (Hold j).
    + simpl. split; [done|]. split; [done|]. split; [|split].
      * intros j. destruct (decide (j = next_oid w)) as [->|Hne].
        -- rewrite lookup_insert_eq. split; [lia|eauto].
        -- rewrite lookup_insert_ne by done. rewrite Hdom. lia.
      * intros j cj. destruct (decide (j = next_oid w)) as [->|Hne].
        -- rewrite lookup_insert_eq. by intros [= <-].
        -- rewrite lookup_insert_ne by done. apply Hty.
      * intros j Hj. apply (installed_ok_heap w); [|by apply Hok].
        simpl. rewrite lookup_insert_ne; [done|]. intros Heq. by apply (Hold j).
  - (* install *)
    rewrite <- Hreg, <- Hnx.
    destruct (invariant_install tr w i Hinv Hi) as (-> & -> & ? & ? & ?). done.
  - (* uninstall *)
    rewrite <- Hreg, <- Hnx.
    destruct (invariant_uninstall tr w i Hinv) as (Hi' & -> & Hh).
    rewrite Hi'. split; [done|]. split; [done|]. rewrite Hh. split; [done|].
    split; [done|]. intros j Hj. apply (installed_ok_heap w); [by rewrite Hh|].
    apply Hok. set_solver.
  - (* uninstall_all *)
    rewrite <- Hnx.
    assert (NoDup order) as Hnd by (rewrite Hperm; apply NoDup_elements).
    destruct (uninstall_list order w Hnd Hok) as (w' & Hrun & Hh & Hi' & Hn & _).
    unfold exec, uninstall_all_in. rewrite Hrun. simpl.
    assert (instances w' = ∅) as Hempty.
    { rewrite Hi'. apply set_eq. intros j.
      rewrite elem_of_difference, elem_of_list_to_set, Hperm, elem_of_elements.
      set_solver. }
    rewrite Hempty, Hn, Hh. split; [done|]. split; [done|]. split; [done|].
    split; [done|]. intros j Hj. by apply elem_of_empty in Hj.
  - (* clear *)
    destruct Hi as [c Hc].
    by apply (invariant_update tr w i (with_records (λ _, [])) c Hinv Hc).
  - (* emit *)
    destruct Hi as [c Hc].
    by apply (invariant_update tr w i (with_records (λ rs, rs ++ [r])) c Hinv Hc).
  - (* __enter__ *)
    exact Hinv.
  - (* __exit__ *)
    rewrite <- Hreg, <- Hnx.
    unfold __exit__.
    destruct (invariant_uninstall tr w i Hinv) as (Hi' & -> & Hh).
    rewrite Hi'. split; [done|]. split; [done|]. rewrite Hh. split; [done|].
    split; [done|]. intros j Hj. apply (installed_ok_heap w); [by rewrite Hh|].
    apply Hok. set_solver.
Qed.

Lemma reaches_invariant w0 tr w :
  pristine w0 → Forall well_typed tr → reaches w0 tr w → invariant tr w.
Proof.
  intros (Hh0 & Hi0 & Hn0) Hwt Hreach.
  induction Hreach as [|tr w c w' Hreach IH Hstep].
  - unfold invariant, currently_installed. simpl. rewrite Hh0, Hi0, Hn0.
    split; [done|]. split; [done|]. split; [|split].
    + intros i. rewrite lookup_empty. split; [by intros [? ?]|lia].
    + intros i c. by rewrite lookup_empty.
    + intros i Hi. by apply elem_of_empty in Hi.
  - apply Forall_app in Hwt as [Htr Hc]. apply Forall_inv in Hc.
    eapply step_invariant; eauto.
Qed.







(** ** Captures that are kept apart *)










(** ** The [with] statement *)

Lemma init_saved a lvl w n k :
  Forall hashable (names_of a) → sole_name (names_of a) n k →
  ∃ c, heap (exec (__init__ a true lvl) w) !! next_oid w = Some c ∧
       names c = names_of a ∧ saved_channel c n = Some (get_logger w k).
Proof.
  intros Hall Hsole. unfold exec. rewrite (init_installed _ _ _ Hall). cbn [snd].
  destruct (register_frame (next_oid w)
    (foldl (swap_channel (next_oid w)) (created a lvl w) (names_of a))) as (_ & -> & _).
  destruct (swap_fold_saved_sole (next_oid w) (names_of a) _ _ n k
              (created_heap a lvl w) Hsole) as (c & Hc & Hs).
  destruct (swap_fold_self (next_oid w) (names_of a) _ _ (created_heap a lvl w))
    as (c' & Hc' & Hn' & _).
  rewrite Hc in Hc'. injection Hc' as <-. exists c. done.
Qed.

(** C9, as amended: entering the block returns the instance itself and
    changes nothing, so that the instance is installed inside the block
    exactly when it was installed before: it is, registered and the only
    handler of its channels, when it comes from a constructor called with
    [install] set, which is the default.  Leaving the block calls
    [uninstall()], whether the block returns or raises, and the block's
    result or exception is passed on: afterwards the instance is not in the
    registry, and each logger that one of its names alone refers to has the
    level and handlers the instance had saved for it, which for an instance
    installed by its constructor, and left registered with its saved state
    by the block, are those from before the construction. *)
Theorem with_block_uninstalls_on_exit {A} self (block : oid → M A) w :
  let w2 := exec (block self) w in
  let w3 := exec (with_ self block) w in
  (self ∈ instances w2 → installed_ok w2 self) →
  __enter__ self w = (Returned self, w) ∧
  with_ self block w = (eval (block self) w, exec (uninstall self) w2) ∧
  (self ∉ instances w3) ∧
  (∀ c n k lg, self ∈ instances w2 → heap w2 !! self = Some c →
     sole_name (names c) n k →
     saved_channel c n = Some lg → get_logger w3 k = lg) ∧
  (∀ a lvl w0, Forall hashable (names_of a) →
     w = exec (__init__ a true lvl) w0 → self = next_oid w0 →
     self ∈ instances w ∧
     (∀ k, k ∈ channels (names_of a) → get_logger w k = mkLogger lvl [self]) ∧
     (self ∈ instances w2 →
      (∀ c, heap w !! self = Some c →
            ∃ c2, heap w2 !! self = Some c2 ∧ names c2 = names c ∧
                  oldlevels c2 = oldlevels c ∧ oldhandlers c2 = oldhandlers c) →
      ∀ n k, sole_name (names_of a) n k → get_logger w3 k = get_logger w0 k)).
Proof.
  intros w2 w3 Hok.
  destruct (uninstall_spec self w2 Hok) as (w' & Hrun & _ & Hi & _ & _ & _ & _ & Hexact).
  assert (with_ self block w = (eval (block self) w, exec (uninstall self) w2)) as Hwith.
  { unfold with_, __enter__, __exit__, ret, eval. subst w2. unfold exec in *.
    destruct (block self w) as [r w2']. simpl in *. by rewrite Hrun. }
  assert (w3 = w') as Hw3.
  { subst w3. unfold exec at 1. rewrite Hwith. unfold exec. by rewrite Hrun. }
  split; [done|]. split; [done|]. rewrite Hw3. split; [rewrite Hi; set_solver|].
  assert (∀ c n k lg, self ∈ instances w2 → heap w2 !! self = Some c →
     sole_name (names c) n k →
     saved_channel c n = Some lg → get_logger w' k = lg) as Hsaved.
  { intros c n k lg Hin Hc Hsole Hs. unfold get_logger.
    by rewrite (Hexact c n k lg Hin Hc Hsole Hs). }
  split; [done|].
  intros a lvl w0 Hall -> ->.
  assert (next_oid w0 ∈ instances (exec (__init__ a true lvl) w0) ∧
          ∀ k, k ∈ channels (names_of a) →
               get_logger (exec (__init__ a true lvl) w0) k = mkLogger lvl [next_oid w0])
    as [Hreg Hswapped].
  { unfold exec. rewrite (init_installed _ _ _ Hall). cbn [snd].
    destruct (register_frame (next_oid w0)
      (foldl (swap_channel (next_oid w0)) (created a lvl w0) (names_of a)))
      as (Hl & _ & _ & Hin & _).
    split; [rewrite Hin; set_solver|]. intros k Hk. unfold get_logger. rewrite Hl.
    by rewrite (swap_fold_loggers _ _ _ _ _ (created_heap a lvl w0) Hk). }
  split; [done|]. split; [done|].
  intros Hin Hkeep n k Hsole.
  destruct (init_saved a lvl w0 n k Hall Hsole) as (c & Hc & Hnames & Hs).
  destruct (Hkeep c Hc) as (c2 & Hc2 & Hn2 & Hl2 & Hh2).
  apply (Hsaved c2 n k); try done.
  - by rewrite Hn2, Hnames.
  - unfold saved_channel in *. by rewrite Hl2, Hh2.
Qed.

(** ** The claims on concrete runs *)

(** C4: names that repeat a logger.  The logger [a] is at level [WARNING]
    with the handler 0; an instance for the names [('a', 'a')] is installed
    and uninstalled at once.  Both calls return, and the logger is left at
    the instance's level 1 with the instance as its handler: the second turn
    of the loop of [install] has overwritten what the first had saved. *)
Theorem install_uninstall_duplicate_name :
  let w := exec (__init__ (ATuple [NStr "a"; NStr "a"]) false 1) configured in
  get_logger w "a" = mkLogger 30 [0%nat] ∧
  eval (install 1%nat) w = Returned tt ∧
  eval (uninstall 1%nat) (exec (install 1%nat) w) = Returned tt ∧
  get_logger (exec (uninstall 1%nat) (exec (install 1%nat) w)) "a" = mkLogger 1 [1%nat].
Proof. vm_compute. done. Qed.

(** C3 as stated fails: a list is logged and then grows; the entry read
    afterwards shows the list as it is when read, not as it was logged. *)
Lemma message_follows_mutated_argument :
  let w := exec (__init__ default_names default_install default_level) initial in
  let σ : objects := {[5%nat := "[1]"]} in
  let σ' : objects := {[5%nat := "[1, 2]"]} in
  getMessage σ items = "items: [1]" ∧
  eval (actual σ' 0%nat) (exec (emit 0%nat items) w)
  = Returned [("app", "INFO", "items: [1, 2]")] ∧
  ¬ rendered_at_capture.
Proof.
  split; [by vm_compute|]. split; [by vm_compute|].
  intros Hclaim.
  specialize (Hclaim {[5%nat := "[1]"]} {[5%nat := "[1, 2]"]} 0%nat
    (exec (__init__ default_names default_install default_level) initial)
    (mkLogCapture [NNone] 1 {[NNone := 30]} {[NNone := []]} []) items).
  vm_compute in Hclaim. specialize (Hclaim eq_refl). discriminate Hclaim.
Qed.

(** C9 as stated fails: an instance constructed with [install=False] is
    entered as it is; inside the block it is not in the registry and the
    root logger is untouched. *)
Lemma enter_does_not_install :
  let w := exec (__init__ default_names false default_level) initial in
  eval (__init__ default_names false default_level) initial = Returned 0%nat ∧
  __enter__ 0%nat w = (Returned 0%nat, w) ∧
  eval (with_ 0%nat (λ l, gets (λ w, bool_decide (l ∈ instances w)))) w = Returned false ∧
  get_logger w "" = mkLogger 30 [].
Proof. vm_compute. done. Qed.

(** The scenario of the two database events: [check] with both triples
    succeeds, [check] with the second alone fails at index 0. *)
Lemma check_succeeds_iff_equal_witness :
  let w := exec (deliver 1%nat [retry; failed])
             (exec (__init__ (ATuple [NStr "app.db"]) true 1) configured) in
  let acts := [("app.db", "WARNING", "connection retry");
               ("app.db", "ERROR", "connection failed")] in
  let expected := [("app.db", "ERROR", "connection failed")] in
  eval (actual ∅ 1%nat) w = Returned acts ∧
  check ∅ 1%nat acts w = (Returned tt, w) ∧
  ∃ j : nat,
    check ∅ 1%nat expected w
    = (Raised (AssertionError (Mismatch j (expected !! j) (acts !! j))), w).
Proof.
  intros w acts expected.
  assert (eval (actual ∅ 1%nat) w = Returned acts) as Hacts by (by vm_compute).
  split; [done|]. split.
  - by apply (check_succeeds_iff_equal ∅ 1%nat w acts acts Hacts).
  - destruct (check_succeeds_iff_equal ∅ 1%nat w acts expected Hacts) as [_ Hne].
    destruct Hne as (j & Hj & _); [done|]. by exists j.
Defined.


(** The logged list, unchanged between capture and reading. *)
Lemma message_rendered_when_read_witness :
  let w := exec (__init__ default_names false default_level) initial in
  let c := mkLogCapture [NNone] 1 ∅ ∅ [] in
  let σ : objects := {[5%nat := "[1]"]} in
  heap w !! 0%nat = Some c ∧
  eval (actual σ 0%nat) (exec (emit 0%nat items) w)
  = Returned [("app", "INFO", "items: [1]")].
Proof.
  intros w c σ.
  assert (heap w !! 0%nat = Some c) as Hc by (by vm_compute).
  split; [done|].
  destruct (message_rendered_when_read σ σ 0%nat w c items Hc) as (_ & Hact & _).
  exact Hact.
Defined.

(** An instance installed on the configured logger [a] and uninstalled
    twice. *)
Lemma uninstall_idempotent_witness :
  let w := exec (__init__ (ATuple [NStr "a"]) true 1) configured in
  let w1 := exec (uninstall 1%nat) w in
  (1%nat ∈ instances w → installed_ok w 1%nat) ∧
  eval (uninstall 1%nat) w = Returned tt ∧
  instances w1 = instances w ∖ {[1%nat]} ∧
  uninstall 1%nat w1 = (Returned tt, w1).
Proof.
  intros w w1.
  assert (1%nat ∈ instances w → installed_ok w 1%nat) as Hok.
  { intros _. exists (mkLogCapture [NStr "a"] 1 {[NStr "a" := 30]} {[NStr "a" := [0%nat]]} []).
    split; [by vm_compute|]. simpl. constructor; [|constructor].
    split; [by exists "a"|]. eexists. by vm_compute. }
  split; [done|].
  destruct (uninstall_idempotent 1%nat w Hok) as (Hev & Hi & Htwice & _).
  split; [exact Hev|]. split; [exact Hi|exact Htwice].
Defined.

(** [clear()] on an installed instance that holds the two database events. *)
Lemma clear_only_empties_buffer_witness :
  let w := exec (deliver 1%nat [retry; failed])
             (exec (__init__ (ATuple [NStr "app.db"]) true 1) configured) in
  let c := mkLogCapture [NStr "app.db"] 1 {[NStr "app.db" := 0]} {[NStr "app.db" := []]}
             [retry; failed] in
  let w' := exec (clear 1%nat) w in
  heap w !! 1%nat = Some c ∧
  eval (actual ∅ 1%nat) w' = Returned [] ∧
  eval (check ∅ 1%nat []) w' = Returned tt ∧
  instances w' = instances w ∧ loggers w' = loggers w.
Proof.
  intros w c w'.
  assert (heap w !! 1%nat = Some c) as Hc by (by vm_compute).
  split; [done|].
  destruct (clear_only_empties_buffer ∅ 1%nat w c Hc)
    as (_ & Hact & Hcheck & _ & _ & Hi & Hl & _).
  split; [exact Hact|]. split; [exact Hcheck|]. split; [exact Hi|exact Hl].
Defined.

(** Two instances on the disjoint channels [a] and [b]: the registry is
    emptied and both loggers are as they were configured. *)
Lemma uninstall_all_empties_registry_witness :
  let w := exec (__init__ (ATuple [NStr "b"]) true 1)
             (exec (__init__ (ATuple [NStr "a"]) true 1) configured) in
  let order := elements (instances w) in
  let w' := exec (uninstall_all_in order) w in
  order ≡ₚ elements (instances w) ∧
  (∀ i, i ∈ instances w → installed_ok w i) ∧
  eval (uninstall_all_in order) w = Returned tt ∧
  instances w' = ∅ ∧
  get_logger w' "a" = get_logger configured "a" ∧
  get_logger w' "b" = get_logger configured "b".
Proof.
  intros w order w'.
  assert (elements (instances w) = [2%nat; 1%nat]) as He by (by vm_compute).
  assert (∀ i, i ∈ instances w → installed_ok w i) as Hok.
  { intros i Hi%elem_of_elements. rewrite He in Hi.
    apply elem_of_cons in Hi as [->|Hi]; [|apply elem_of_cons in Hi as [->|Hi]].
    - exists (mkLogCapture [NStr "b"] 1 {[NStr "b" := 0]} {[NStr "b" := []]} []).
      split; [by vm_compute|]. simpl. constructor; [|constructor].
      split; [by exists "b"|]. eexists. by vm_compute.
    - exists (mkLogCapture [NStr "a"] 1 {[NStr "a" := 30]} {[NStr "a" := [0%nat]]} []).
      split; [by vm_compute|]. simpl. constructor; [|constructor].
      split; [by exists "a"|]. eexists. by vm_compute.
    - by apply elem_of_nil in Hi. }
  split; [done|]. split; [done|].
  destruct (uninstall_all_empties_registry w order (reflexivity _) Hok)
    as (_ & Hev & Hempty & _).
  split; [exact Hev|]. split; [exact Hempty|]. by vm_compute.
Defined.


(** A block that logs an event and then raises, on an instance installed by
    its constructor for the names [('a', 'b', 'b')], the logger [a] being
    configured: [a], which one name refers to, is swapped inside the block
    and configured as before after it. *)
Lemma with_block_uninstalls_on_exit_witness :
  let w := exec (__init__ (ATuple [NStr "a"; NStr "b"; NStr "b"]) true 1) configured in
  let block := λ l : oid, emit l retry ;; raise KeyError : M unit in
  let w2 := exec (block 1%nat) w in
  let w3 := exec (with_ 1%nat block) w in
  (1%nat ∈ instances w2 → installed_ok w2 1%nat) ∧
  eval (with_ 1%nat block) w = Raised KeyError ∧
  (1%nat ∉ instances w3) ∧
  get_logger w "a" = mkLogger 1 [1%nat] ∧
  get_logger w3 "a" = get_logger configured "a".
Proof.
  intros w block w2 w3.
  assert (1%nat ∈ instances w2 → installed_ok w2 1%nat) as Hok.
  { intros _. eexists. split; [by vm_compute|]. simpl.
    repeat constructor; try (by eexists); eexists; by vm_compute. }
  split; [done|].
  destruct (with_block_uninstalls_on_exit 1%nat block w Hok) as (_ & Hwith & Hout & _ & Hctor).
  assert (Forall hashable (names_of (ATuple [NStr "a"; NStr "b"; NStr "b"]))) as Hall.
  { repeat constructor; by eexists. }
  destruct (Hctor (ATuple [NStr "a"; NStr "b"; NStr "b"]) 1 configured Hall eq_refl eq_refl)
    as (Hreg & Hswapped & Hrestored).
  split; [unfold eval; by rewrite Hwith|]. split; [exact Hout|]. split.
  - apply Hswapped. apply elem_of_cons. by left.
  - eapply (λ Hin Hkeep, Hrestored Hin Hkeep (NStr "a")).
    + apply elem_of_elements. vm_compute. apply elem_of_cons. by left.
    + intros c Hc. vm_compute in Hc. injection Hc as <-.
      eexists. split; [by vm_compute|]. repeat split; vm_compute; reflexivity.
    + done.
Defined.

(** * More of the module *)

(** ** install() followed at once by uninstall() *)

(** X1: for an instance whose names are logger names that refer to pairwise
    distinct loggers, [install()] followed at once by [uninstall()] returns
    twice and leaves every logger of the framework, the instance's and all
    others, with the level and the handlers it had before; the instance is
    out of the registry and every other capture object is unchanged. *)
Theorem install_then_uninstall_restores self w c :
  heap w !! self = Some c → Forall hashable (names c) → NoDup (channels (names c)) →
  let w2 := exec (uninstall self) (exec (install self) w) in
  eval (install self) w = Returned tt ∧
  eval (uninstall self) (exec (install self) w) = Returned tt ∧
  (∀ k, get_logger w2 k = get_logger w k) ∧
  instances w2 = instances w ∖ {[self]} ∧
  (∀ j, j ≠ self → heap w2 !! j = heap w !! j).
Proof.
  intros Hc Hall Hnd w2.
  destruct (install_uninstall self w c Hc Hall Hnd) as (Hev1 & Hev2 & Hlog).
  destruct (install_facts self w c Hc Hall) as (_ & Hi & _ & Hother & c' & Hc' & Hn & Hres).
  assert (self ∈ instances (exec (install self) w)) as Hreg.
  { rewrite Hi. apply elem_of_union_l. by apply elem_of_singleton. }
  rewrite <- Hn in Hnd.
  destruct (uninstall_loggers self _ c' Hreg Hc' Hres Hnd) as (_ & Hh & Hi2 & _).
  split; [done|]. split; [done|]. split; [done|]. split.
  - subst w2. rewrite Hi2, Hi. set_solver.
  - intros j Hj. subst w2. rewrite Hh. by apply Hother.
Qed.

(** ** Two captures at once *)

Lemma not_elem_of_removed (s : gset oid) x : x ∉ s ∖ {[x]}.
Proof. set_solver. Qed.





(** ** install() on an instance that is installed already *)

(** When the loggers of the names already have the instance's level and the
    instance as their handler, that is what the loop of [install] saves. *)
Lemma swap_fold_resave self ns w c :
  heap w !! self = Some c →
  (∀ n k, n ∈ ns → logger_key n = Some k → get_logger w k = mkLogger (level c) [self]) →
  ∃ c', heap (foldl (swap_channel self) w ns) !! self = Some c' ∧
        ∀ n, n ∈ ns → hashable n → saved_channel c' n = Some (mkLogger (level c) [self]).
Proof.
  revert w c. induction ns as [|n0 ns IH]; intros w c Hc Hlog; simpl.
  { exists c. split; [done|]. intros n Hn. by apply elem_of_nil in Hn. }
  destruct (logger_key n0) as [k0|] eqn:Hk0.
  - set (c1 := mkLogCapture (names c) (level c)
                 (<[n0 := logger_level (get_logger w k0)]> (oldlevels c))
                 (<[n0 := logger_handlers (get_logger w k0)]> (oldhandlers c)) (records c)).
    assert (heap (swap_channel self w n0) !! self = Some c1) as Hc1.
    { unfold swap_channel. rewrite Hc, Hk0. simpl. by rewrite lookup_insert_eq. }
    assert (∀ n k, n ∈ ns → logger_key n = Some k →
              get_logger (swap_channel self w n0) k = mkLogger (level c1) [self]) as Hlog1.
    { intros n k Hn Hk. unfold get_logger, swap_channel. rewrite Hc, Hk0. simpl.
      destruct (decide (k = k0)) as [->|Hne]; [by rewrite lookup_insert_eq|].
      rewrite lookup_insert_ne by done. apply (Hlog n); [by apply elem_of_cons; right|done]. }
    destruct (IH _ _ Hc1 Hlog1) as (c' & Hc' & Hsaved).
    exists c'. split; [done|]. intros n Hn Hh.
    destruct (decide (n ∈ ns)) as [Hin|Hnot]; [by apply Hsaved|].
    apply elem_of_cons in Hn as [->|]; [|done].
    destruct (swap_fold_self self ns _ _ Hc1) as (c'' & Hc'' & _ & _ & _ & Hout & _).
    rewrite Hc' in Hc''. injection Hc'' as <-. rewrite Hout by done.
    unfold c1. rewrite saved_channel_insert.
    f_equal. apply (Hlog n0); [by apply elem_of_cons; left|done].
  - assert (swap_channel self w n0 = w) as ->.
    { unfold swap_channel. rewrite Hk0. by case_match. }
    destruct (IH w c Hc) as (c' & Hc' & Hsaved).
    { intros n k Hn. apply Hlog. by apply elem_of_cons; right. }
    exists c'. split; [done|]. intros n [->|Hn]%elem_of_cons Hh; [|by apply Hsaved].
    destruct Hh as [? Hh]. congruence.
Qed.

(** X4: [install()] called twice without [uninstall()] in between returns
    both times, and the second call saves the capture's own configuration
    in place of the loggers' original one: the [uninstall()] that follows
    returns and takes the instance out of the registry, but leaves each of
    its loggers at the instance's level with the instance as only handler,
    whatever the logger was before. *)
Theorem double_install_loses_saved_state self w c :
  heap w !! self = Some c → Forall hashable (names c) →
  let w1 := exec (install self) w in
  let w2 := exec (install self) w1 in
  let w3 := exec (uninstall self) w2 in
  eval (install self) w = Returned tt ∧ eval (install self) w1 = Returned tt ∧
  eval (uninstall self) w2 = Returned tt ∧
  (self ∉ instances w3) ∧
  ∀ k, k ∈ channels (names c) → get_logger w3 k = mkLogger (level c) [self].
Proof.
  intros Hc Hall w1 w2 w3. subst w1 w2 w3.
  destruct (install_restorable self w c Hc Hall) as (c1 & Hc1 & Hn1 & Hl1 & _ & _).
  destruct (install_facts self w c Hc Hall) as (Hev1 & _).
  pose proof Hall as Hall1. rewrite <- Hn1 in Hall1.
  destruct (install_facts self _ c1 Hc1 Hall1)
    as (Hev2 & Hi2 & _ & _ & c2 & Hc2 & Hn2 & Hres2).
  assert (∀ n, n ∈ names c → saved_channel c2 n = Some (mkLogger (level c) [self]))
    as Hsaved.
  { intros n Hn.
    destruct (swap_fold_resave self (names c1) (exec (install self) w) c1 Hc1)
      as (c' & Hc' & Hs).
    { intros n' k Hn' Hk. apply get_logger_lookup. rewrite Hl1.
      apply (install_loggers self w c Hc Hall). apply list_elem_of_omap.
      exists n'. by rewrite <- Hn1. }
    assert (heap (exec (install self) (exec (install self) w)) !! self = Some c') as Hc2'.
    { unfold exec at 1. rewrite (install_eq _ _ _ Hc1 Hall1). cbn [snd].
      by destruct (register_frame self
        (foldl (swap_channel self) (exec (install self) w) (names c1))) as (_ & -> & _). }
    rewrite Hc2 in Hc2'. injection Hc2' as <-. rewrite <- Hl1.
    apply Hs; [by rewrite Hn1|]. by eapply Forall_forall in Hall. }
  destruct (uninstall_spec self (exec (install self) (exec (install self) w)))
    as (w3 & Hrun & _ & Hi3 & _ & _ & _ & Hsome & _).
  { intros _. exists c2. done. }
  assert (exec (uninstall self) (exec (install self) (exec (install self) w)) = w3) as ->.
  { unfold exec at 1. by rewrite Hrun. }
  split; [done|]. split; [done|]. split; [unfold eval; by rewrite Hrun|].
  split; [rewrite Hi3; apply not_elem_of_removed|].
  intros k Hk. destruct (Hsome k) as (c' & n & lg & Hc' & Hn & _ & Hs & Hlk).
  { split; [rewrite Hi2; apply elem_of_union_l; by apply elem_of_singleton|].
    exists c2. split; [done|]. by rewrite Hn2, Hn1. }
  rewrite Hc2 in Hc'. injection Hc' as <-.
  rewrite Hsaved in Hs by (by rewrite <- Hn1, <- Hn2). injection Hs as <-.
  by apply get_logger_lookup.
Qed.

(** ** install() with a name that is no logger name *)

Lemma for_each_install_raises self ns1 bad ns2 w :
  is_Some (heap w !! self) → Forall hashable ns1 → logger_key bad = None →
  for_each (ns1 ++ bad :: ns2) (install_channel self) w
  = (Raised TypeError, foldl (swap_channel self) w ns1).
Proof.
  intros Hc Hall Hbad. revert w Hc.
  induction Hall as [|n ns1 Hn _ IH]; intros w Hc; simpl.
  - erewrite bind_raised; [done|]. by apply install_channel_unhashable.
  - erewrite bind_returned by (by apply install_channel_eq).
    apply IH. by apply swap_channel_heap.
Qed.

(** X5: when the tuple of names holds a value that is no logger name (a
    list), [install()] raises [TypeError] at that name, after it has swapped
    the loggers of the names before it: those are left at the instance's
    level with the instance as only handler, while the instance has not been
    entered in the registry; the other loggers are untouched.  An
    [uninstall()] after that is therefore a no-op and does not restore
    them. *)
Theorem install_stops_at_bad_name self w c ns1 bad ns2 :
  heap w !! self = Some c → names c = ns1 ++ bad :: ns2 →
  Forall hashable ns1 → logger_key bad = None → self ∉ instances w →
  let w1 := exec (install self) w in
  eval (install self) w = Raised TypeError ∧
  instances w1 = instances w ∧
  (∀ k, k ∈ channels ns1 → get_logger w1 k = mkLogger (level c) [self]) ∧
  (∀ k, k ∉ channels ns1 → loggers w1 !! k = loggers w !! k) ∧
  uninstall self w1 = (Returned tt, w1).
Proof.
  intros Hc Hn Hall Hbad Hout w1.
  assert (install self w = (Raised TypeError, foldl (swap_channel self) w ns1)) as Hrun.
  { unfold install. erewrite bind_returned by (by apply deref_eq). rewrite Hn.
    erewrite bind_raised; [done|]. apply for_each_install_raises; eauto. }
  subst w1. unfold eval, exec. rewrite Hrun. cbn [fst snd].
  destruct (swap_fold_frame self ns1 w) as (_ & Hi & _).
  split; [done|]. split; [done|]. split; [|split].
  - intros k Hk. apply get_logger_lookup. by apply (swap_fold_loggers _ _ _ c).
  - intros k Hk. by apply swap_fold_loggers_ne.
  - apply uninstall_unregistered. by rewrite Hi.
Qed.

(** ** uninstall() and the framework's bookkeeping *)

Lemma forget_handler_by_reference self w : by_reference w → forget_handler self w = w.
Proof.
  intros [Hd Hl]. unfold forget_handler.
  rewrite decide_False; [|by intros [s ?]%Hd].
  rewrite decide_False; [|by intros [h ?]%Hl].
  by destruct w.
Qed.

Lemma restore_fold_by_reference self c ns w :
  by_reference w →
  _handlers (foldl (restore_channel self c) w ns) = _handlers w ∧
  _handlerList (foldl (restore_channel self c) w ns) = _handlerList w.
Proof.
  revert w. induction ns as [|n ns IH]; intros w Hw; simpl; [done|].
  assert (_handlers (restore_channel self c w n) = _handlers w ∧
          _handlerList (restore_channel self c w n) = _handlerList w) as [Hd Hl].
  { unfold restore_channel. repeat case_match; try done.
    by rewrite forget_handler_by_reference. }
  destruct (IH (restore_channel self c w n)) as [-> ->]; [|done].
  unfold by_reference. by rewrite Hd, Hl.
Qed.

Lemma init_bookkeeping a b lvl w :
  _handlers (exec (__init__ a b lvl) w) = _handlers w ∧
  _handlerList (exec (__init__ a b lvl) w) = _handlerList w ++ [VRef (next_oid w)].
Proof.
  unfold exec. rewrite init_eq. destruct b; [|done].
  destruct (install_general _ _ _ (created_heap a lvl w))
    as (o & ns' & _ & [(-> & _ & ->)|(-> & _ & ->)]).
  - destruct (register_frame (next_oid w)
      (foldl (swap_channel (next_oid w)) (created a lvl w) (names_of a)))
      as (_ & _ & _ & _ & Hd & Hl).
    destruct (swap_fold_frame (next_oid w) (names_of a) (created a lvl w))
      as (_ & _ & _ & _ & Hd' & Hl').
    cbn [snd names]. by rewrite Hd, Hl, Hd', Hl'.
  - destruct (swap_fold_frame (next_oid w) ns' (created a lvl w))
      as (_ & _ & _ & _ & Hd' & Hl').
    cbn [snd]. by rewrite Hd', Hl'.
Qed.

(** X7: the purge at the end of each turn of the loop of [uninstall] finds
    nothing.  The framework keeps [_handlers] under the handlers' names and
    [_handlerList] as weak references, so that the instance itself is a key
    of the one and an element of the other never: [uninstall()] returns and
    leaves both as they were, the weak reference that the constructor has
    appended to [_handlerList] included.  The constructor keeps the
    bookkeeping in that form. *)
Theorem uninstall_keeps_weak_reference self w :
  by_reference w → (self ∈ instances w → installed_ok w self) →
  let w' := exec (uninstall self) w in
  eval (uninstall self) w = Returned tt ∧
  _handlers w' = _handlers w ∧
  _handlerList w' = _handlerList w ∧
  (∀ a b lvl,
     let w1 := exec (__init__ a b lvl) w in
     _handlers w1 = _handlers w ∧
     _handlerList w1 = _handlerList w ++ [VRef (next_oid w)] ∧
     by_reference w1).
Proof.
  intros Hw Hok w'. subst w'. unfold eval, exec at 1 2.
  assert (_handlers (uninstall self w).2 = _handlers w ∧
          _handlerList (uninstall self w).2 = _handlerList w ∧
          (uninstall self w).1 = Returned tt) as (-> & -> & ->).
  { destruct (decide (self ∈ instances w)) as [Hin|Hout].
    - destruct (Hok Hin) as (c & Hc & Hall).
      rewrite (uninstall_eq _ _ _ Hin Hc Hall). simpl.
      by destruct (restore_fold_by_reference self c (names c) w Hw) as [-> ->].
    - by rewrite (uninstall_unregistered _ _ Hout). }
  repeat split; try done.
  - apply init_bookkeeping.
  - apply init_bookkeeping.
  - destruct (init_bookkeeping a b lvl w) as [-> _]. apply Hw.
  - destruct (init_bookkeeping a b lvl w) as [_ ->].
    intros v [Hv|Hv]%elem_of_app; [by apply Hw|].
    apply elem_of_cons in Hv as [->|Hv]; [eauto|]. by apply elem_of_nil in Hv.
Qed.

(** ** The textual summary *)




(** ** The exit audit *)

Lemma collect_names repr order w :
  (∀ i, i ∈ order → is_Some (heap w !! i)) →
  ∃ lines,
    collect order (λ i, c <- deref i ;; ret (str_names repr (names c))) w
    = (Returned lines, w) ∧
    Forall2 (λ i line, ∃ c, heap w !! i = Some c ∧ line = str_names repr (names c))
            order lines.
Proof.
  induction order as [|i order IH]; intros Hall; simpl.
  { exists []. split; [done|constructor]. }
  destruct (Hall i) as [c Hc]; [by apply elem_of_cons; left|].
  destruct IH as (lines & Hrun & Hlines).
  { intros j Hj. apply Hall. by apply elem_of_cons; right. }
  exists (str_names repr (names c) :: lines). split.
  - erewrite bind_returned; [|by erewrite bind_returned by (by apply deref_eq)].
    by erewrite bind_returned by exact Hrun.
  - constructor; [eauto|done].
Qed.

(** X8: after any history of calls (from a process without captures, with
    logger names for names), the audit run at exit returns without changing
    anything, and it issues its warning exactly when some instance is still
    installed according to the history: it is silent when every capture
    that was installed has been uninstalled.  The warning is the header
    followed by one line per registered instance, the [str] of its tuple of
    names. *)
Theorem exit_audit_warns_iff_still_installed repr w0 tr w order :
  pristine w0 → Forall well_typed tr → reaches w0 tr w →
  order ≡ₚ elements (instances w) →
  ∃ warning,
    atexit repr order w = (Returned warning, w) ∧
    (warning = None ↔ currently_installed tr = ∅) ∧
    (currently_installed tr ≠ ∅ →
     ∃ lines,
       warning = Some (atexit_header +:+ newline +:+ join newline lines) ∧
       length lines = size (currently_installed tr) ∧
       Forall2 (λ i line, ∃ c, heap w !! i = Some c ∧ line = str_names repr (names c))
               order lines).
Proof.
  intros Hp Hwt Hreach Hperm.
  destruct (reaches_invariant w0 tr w Hp Hwt Hreach) as (Hreg & _ & _ & _ & Hok).
  rewrite <- Hreg. unfold atexit.
  erewrite bind_returned by (unfold gets; reflexivity).
  destruct (decide (instances w = ∅)) as [Hempty|Hsome].
  - rewrite bool_decide_eq_false_2 by (by intros ?).
    exists None. split; [done|]. split; [done|]. done.
  - rewrite bool_decide_eq_true_2 by done.
    destruct (collect_names repr order w) as (lines & Hrun & Hlines).
    { intros i Hi. rewrite Hperm in Hi. apply elem_of_elements in Hi.
      destruct (Hok i Hi) as (c & -> & _). eauto. }
    erewrite bind_returned by exact Hrun.
    eexists. split; [done|]. split; [split; [done|by intros ?]|].
    intros _. exists lines. split; [done|]. split; [|done].
    apply Forall2_length in Hlines. rewrite <- Hlines, Hperm. done.
Qed.

(** ** The decorator variant *)

Lemma install_swap_eq self w c :
  heap w !! self = Some c → Forall hashable (names c) →
  install_swap self w
  = (Returned tt, set_instances (λ s, {[self]} ∪ s) (foldl (swap_channel self) w (names c))).
Proof.
  intros Hc Hall. unfold install_swap. step_with deref_eq.
  erewrite bind_returned by (apply for_each_install; eauto). done.
Qed.

Lemma register_hooks self w :
  atexit_setup (register self w) = true ∧
  atexit_hooks (register self w)
  = if atexit_setup w then atexit_hooks w else S (atexit_hooks w).
Proof. unfold register. simpl. by destruct (atexit_setup w) eqn:Hs; simpl. Qed.

Lemma lift_install_eq self p c :
  heap (base p) !! self = Some c → Forall hashable (names c) →
  lift (install self) p
  = (Returned tt,
     mkProcess (register self (foldl (swap_channel self) (base p) (names c)))
               (decorator_atexit_setup p)).
Proof. intros Hc Hall. unfold lift. by rewrite (install_eq _ _ _ Hc Hall). Qed.

(** [install] on an instance of the subclass does to the loggers, the
    objects and the registry what it does on an instance of [LogCapture];
    the hook is registered when neither the subclass nor, failing it, the
    base class has [atexit_setup] true, and the flag is then set on the
    subclass only. *)
Lemma install_as_decorator_eq self p c :
  heap (base p) !! self = Some c → Forall hashable (names c) →
  let w := set_instances (λ s, {[self]} ∪ s)
             (foldl (swap_channel self) (base p) (names c)) in
  install_as_decorator self p
  = if default (atexit_setup (base p)) (decorator_atexit_setup p)
    then (Returned tt, mkProcess w (decorator_atexit_setup p))
    else (Returned tt, mkProcess (add_hook w) (Some true)).
Proof.
  intros Hc Hall w. unfold install_as_decorator.
  rewrite (install_swap_eq _ _ _ Hc Hall). fold w.
  destruct (swap_fold_frame self (names c) (base p)) as (_ & _ & Hs & _).
  replace (atexit_setup w) with (atexit_setup (base p)) by (by rewrite <- Hs).
  done.
Qed.

(** X9: the guard that registers the exit hook once is kept per class.  A
    capture of class [LogCapture] and one of class [LogCaptureForDecorator]
    are installed in a process where no capture has been installed before:
    when the [LogCapture] is installed first, the hook is registered once;
    when the decorator's capture is installed first, installing the
    [LogCapture] registers the hook a second time, since the first install
    set the flag on the subclass only. *)
Theorem exit_hook_registered_once_per_class x y p cx cy :
  x ≠ y → heap (base p) !! x = Some cx → heap (base p) !! y = Some cy →
  Forall hashable (names cx) → Forall hashable (names cy) →
  atexit_setup (base p) = false → decorator_atexit_setup p = None →
  let plain_first := (LogCaptureForDecorator_install y (lift (install x) p).2).2 in
  let decorator_first := (lift (install x) (LogCaptureForDecorator_install y p).2).2 in
  (LogCaptureForDecorator_install y (lift (install x) p).2).1 = Returned y ∧
  (lift (install x) (LogCaptureForDecorator_install y p).2).1 = Returned tt ∧
  atexit_hooks (base plain_first) = S (atexit_hooks (base p)) ∧
  atexit_hooks (base decorator_first) = S (S (atexit_hooks (base p))) ∧
  instances (base plain_first) = instances (base decorator_first).
Proof.
  intros Hxy Hx Hy Hax Hay Hbase Hsub plain_first decorator_first.
  subst plain_first decorator_first.
  set (wx := register x (foldl (swap_channel x) (base p) (names cx))).
  set (wy := add_hook (set_instances (λ s, {[y]} ∪ s)
                        (foldl (swap_channel y) (base p) (names cy)))).
  destruct (register_frame x (foldl (swap_channel x) (base p) (names cx)))
    as (_ & Hhpx & _ & Hregx & _).
  destruct (register_hooks x (foldl (swap_channel x) (base p) (names cx))) as [Hsx Hhx].
  destruct (swap_fold_frame x (names cx) (base p)) as (_ & Hix & Hsx' & Hhx' & _).
  rewrite Hsx', Hbase, Hhx' in Hhx. fold wx in Hsx, Hhx, Hhpx, Hregx.
  destruct (swap_fold_frame y (names cy) (base p)) as (_ & Hiy & Hsy & Hhy & _).
  (* the LogCapture first *)
  assert (heap wx !! y = Some cy) as Hy1.
  { rewrite Hhpx. by rewrite swap_fold_heap_ne. }
  assert (LogCaptureForDecorator_install y (lift (install x) p).2
          = (Returned y,
             mkProcess (set_instances (λ s, {[y]} ∪ s)
                          (foldl (swap_channel y) wx (names cy))) None)) as Hpf.
  { rewrite (lift_install_eq x p cx Hx Hax). cbn [snd]. fold wx.
    unfold LogCaptureForDecorator_install.
    rewrite (install_as_decorator_eq y (mkProcess wx (decorator_atexit_setup p)) cy Hy1 Hay).
    cbn [base decorator_atexit_setup]. rewrite Hsub. cbn [default]. by rewrite Hsx. }
  (* the decorator's capture first *)
  assert (heap wy !! x = Some cx) as Hx1.
  { subst wy. simpl. by rewrite swap_fold_heap_ne. }
  assert (lift (install x) (LogCaptureForDecorator_install y p).2
          = (Returned tt,
             mkProcess (register x (foldl (swap_channel x) wy (names cx))) (Some true)))
    as Hdf.
  { unfold LogCaptureForDecorator_install.
    rewrite (install_as_decorator_eq y p cy Hy Hay). rewrite Hsub. cbn [default].
    rewrite Hbase. cbn [snd]. fold wy.
    by rewrite (lift_install_eq x (mkProcess wy (Some true)) cx Hx1 Hax). }
  rewrite Hpf, Hdf. cbn [fst snd base].
  destruct (swap_fold_frame y (names cy) wx) as (_ & Hiy1 & _ & Hhy1 & _).
  destruct (register_hooks x (foldl (swap_channel x) wy (names cx))) as [_ Hhx2].
  destruct (swap_fold_frame x (names cx) wy) as (_ & Hix2 & Hsx2 & Hhx2' & _).
  destruct (register_frame x (foldl (swap_channel x) wy (names cx)))
    as (_ & _ & _ & Hregx2 & _).
  split; [done|]. split; [done|]. split; [|split].
  - cbn [set_instances atexit_hooks]. by rewrite Hhy1.
  - rewrite Hhx2, Hsx2, Hhx2'. subst wy. cbn [add_hook set_instances atexit_setup atexit_hooks].
    by rewrite Hsy, Hbase, Hhy.
  - rewrite Hregx2, Hix2. cbn [set_instances instances]. rewrite Hiy1, Hregx, Hix.
    subst wy. cbn [add_hook set_instances instances]. rewrite Hiy. set_solver.
Qed.

Lemma install_as_decorator_frame self p c :
  heap (base p) !! self = Some c → Forall hashable (names c) →
  ∃ p', install_as_decorator self p = (Returned tt, p') ∧
        loggers (base p') = loggers (foldl (swap_channel self) (base p) (names c)) ∧
        heap (base p') = heap (foldl (swap_channel self) (base p) (names c)) ∧
        instances (base p') = {[self]} ∪ instances (base p).
Proof.
  intros Hc Hall. rewrite (install_as_decorator_eq self p c Hc Hall).
  destruct (swap_fold_frame self (names c) (base p)) as (_ & Hi & _).
  destruct (default (atexit_setup (base p)) (decorator_atexit_setup p));
    eexists; (split; [done|]); simpl; by rewrite Hi.
Qed.

(** X10: [log_capture] creates its capture without installing it: at
    decoration time no logger and not the registry change.  The capture is
    for the given names, for the root logger when none is given, at the
    given level, 1 by default.  Of the two callables it hands to [wrap], the
    first installs the capture and returns the capture itself, with each of
    its loggers at the capture's level and the capture as only handler; the
    second, called after it, uninstalls it, and then every logger has the
    level and handlers from before the first (for names that refer to
    distinct loggers). *)
Theorem log_capture_installs_around_the_call ns lvl p :
  Forall hashable ns → NoDup (channels ns) →
  let l := next_oid (base p) in
  let ns' := match ns with [] => [NNone] | _ => ns end in
  let p1 := (lift (log_capture ns lvl) p).2 in
  let p2 := (LogCaptureForDecorator_install l p1).2 in
  let p3 := (lift (uninstall l) p2).2 in
  (lift (log_capture ns lvl) p).1 = Returned l ∧
  loggers (base p1) = loggers (base p) ∧ instances (base p1) = instances (base p) ∧
  heap (base p1) !! l = Some (mkLogCapture ns' (default 1 lvl) ∅ ∅ []) ∧
  (LogCaptureForDecorator_install l p1).1 = Returned l ∧
  l ∈ instances (base p2) ∧
  (∀ k, k ∈ channels ns' → get_logger (base p2) k = mkLogger (default 1 lvl) [l]) ∧
  (lift (uninstall l) p2).1 = Returned tt ∧
  (∀ k, get_logger (base p3) k = get_logger (base p) k) ∧
  instances (base p3) = instances (base p) ∖ {[l]}.
Proof.
  intros Hall Hnd l ns' p1 p2 p3. subst p1 p2 p3.
  set (a := match ns with [] => AOther NNone | _ => ATuple ns end).
  assert (names_of a = ns') as Hnames by (subst a ns'; by destruct ns).
  assert (Forall hashable ns') as Hall'.
  { subst ns'. destruct ns; [|done]. repeat constructor. by exists "". }
  assert (NoDup (channels ns')) as Hnd'.
  { subst ns'. destruct ns; [|done]. apply NoDup_singleton. }
  set (c := mkLogCapture ns' (default 1 lvl) ∅ ∅ []).
  set (w1 := created a (default 1 lvl) (base p)).
  assert (lift (log_capture ns lvl) p = (Returned l, mkProcess w1 (decorator_atexit_setup p)))
    as Hp1.
  { unfold lift, log_capture. fold a. by rewrite init_eq. }
  assert (heap w1 !! l = Some c) as Hc.
  { subst w1 c l. rewrite created_heap. by rewrite Hnames. }
  rewrite Hp1. cbn [fst snd base].
  destruct (install_as_decorator_frame l (mkProcess w1 (decorator_atexit_setup p)) c Hc Hall')
    as (p2' & Hrun2 & Hl2 & Hh2 & Hi2).
  cbn [base] in Hl2, Hh2, Hi2. change (names c) with ns' in Hl2, Hh2.
  assert (LogCaptureForDecorator_install l (mkProcess w1 (decorator_atexit_setup p))
          = (Returned l, p2')) as Hp2.
  { unfold LogCaptureForDecorator_install. by rewrite Hrun2. }
  rewrite Hp2. cbn [fst snd].
  destruct (swap_fold_self l ns' w1 c Hc) as (c' & Hc' & Hn' & _ & _ & _ & Hin).
  assert (l ∈ instances (base p2')) as Hreg.
  { rewrite Hi2. apply elem_of_union_l. by apply elem_of_singleton. }
  assert (Forall (restorable c') (names c')) as Hres.
  { rewrite Hn'. apply Forall_forall. intros n Hn. split; [|apply Hin; try done];
      by eapply Forall_forall in Hall'. }
  rewrite <- Hh2 in Hc'. pose proof Hnd' as Hnd''. change ns' with (names c) in Hnd''.
  rewrite <- Hn' in Hnd''.
  destruct (uninstall_loggers l (base p2') c' Hreg Hc' Hres Hnd'')
    as (Hev3 & _ & Hi3 & Hsaved & Hframe).
  assert (lift (uninstall l) p2'
          = (Returned tt, mkProcess (exec (uninstall l) (base p2')) (decorator_atexit_setup p2')))
    as Hp3.
  { unfold lift. unfold eval in Hev3. unfold exec.
    destruct (uninstall l (base p2')) as [o w3]. simpl in Hev3. by subst o. }
  rewrite Hp3. cbn [fst snd base].
  split; [done|]. split; [done|]. split; [done|]. split; [done|]. split; [done|].
  split; [done|]. split; [|split; [done|split]].
  - intros k Hk. apply get_logger_lookup. rewrite Hl2.
    by apply (swap_fold_loggers _ _ _ c).
  - intros k. destruct (decide (k ∈ channels ns')) as [Hk|Hk].
    + apply list_elem_of_omap in Hk as (n & Hn & Hkey).
      destruct (swap_fold_saved l ns' w1 c n k Hc Hnd' Hn Hkey) as (c'' & Hc'' & Hs).
      rewrite <- Hh2, Hc' in Hc''. injection Hc'' as <-.
      rewrite (Hsaved n k _ ltac:(by rewrite Hn') Hkey Hs). done.
    + rewrite (get_logger_same _ _ k (Hframe k ltac:(by rewrite Hn'))).
      apply get_logger_same. rewrite Hl2. by rewrite swap_fold_loggers_ne.
  - rewrite Hi3, Hi2. subst w1. cbn [created set_heap allocate instances].
    generalize (instances (base p)). intros s. set_solver.
Qed.

(** ** The further properties on concrete runs *)

Lemma install_then_uninstall_restores_witness :
  let c := mkLogCapture [NStr "a"] 1 ∅ ∅ [] in
  let w2 := exec (uninstall 1%nat) (exec (install 1%nat) two_captures) in
  heap two_captures !! 1%nat = Some c ∧
  Forall hashable (names c) ∧ NoDup (channels (names c)) ∧
  (∀ k, get_logger w2 k = get_logger two_captures k) ∧
  instances w2 = instances two_captures ∖ {[1%nat]}.
Proof.
  intros c w2.
  assert (heap two_captures !! 1%nat = Some c) as Hc by (by vm_compute).
  assert (Forall hashable (names c)) as Hall by (repeat constructor; by exists "a").
  assert (NoDup (channels (names c))) as Hnd by apply NoDup_singleton.
  split; [done|]. split; [done|]. split; [done|].
  destruct (install_then_uninstall_restores 1%nat two_captures c Hc Hall Hnd)
    as (_ & _ & Hlog & Hi & _).
  split; [exact Hlog|exact Hi].
Defined.



Lemma double_install_loses_saved_state_witness :
  let c := mkLogCapture [NStr "a"] 1 ∅ ∅ [] in
  let w3 := exec (uninstall 1%nat) (exec (install 1%nat) (exec (install 1%nat) two_captures)) in
  heap two_captures !! 1%nat = Some c ∧ Forall hashable (names c) ∧
  get_logger two_captures "a" = mkLogger 30 [0%nat] ∧
  (1%nat ∉ instances w3) ∧
  get_logger w3 "a" = mkLogger 1 [1%nat].
Proof.
  intros c w3.
  assert (heap two_captures !! 1%nat = Some c) as Hc by (by vm_compute).
  assert (Forall hashable (names c)) as Hall by (repeat constructor; by exists "a").
  split; [done|]. split; [done|]. split; [by vm_compute|].
  destruct (double_install_loses_saved_state 1%nat two_captures c Hc Hall)
    as (_ & _ & _ & Hout & Hlog).
  split; [exact Hout|]. apply (Hlog "a"). apply elem_of_cons. by left.
Defined.

Lemma install_stops_at_bad_name_witness :
  let c := mkLogCapture [NStr "a"; NList ["b"]] 1 ∅ ∅ [] in
  let w1 := exec (install 1%nat) with_bad_name in
  heap with_bad_name !! 1%nat = Some c ∧
  names c = [NStr "a"] ++ NList ["b"] :: [] ∧
  Forall hashable [NStr "a"] ∧ logger_key (NList ["b"]) = None ∧
  (1%nat ∉ instances with_bad_name) ∧
  eval (install 1%nat) with_bad_name = Raised TypeError ∧
  get_logger w1 "a" = mkLogger 1 [1%nat] ∧
  uninstall 1%nat w1 = (Returned tt, w1).
Proof.
  intros c w1.
  assert (heap with_bad_name !! 1%nat = Some c) as Hc by (by vm_compute).
  assert (names c = [NStr "a"] ++ NList ["b"] :: []) as Hn by done.
  assert (Forall hashable [NStr "a"]) as Hall by (repeat constructor; by exists "a").
  assert (logger_key (NList ["b"]) = None) as Hbad by done.
  assert (1%nat ∉ instances with_bad_name) as Hout by (by vm_compute).
  do 5 (split; [done|]).
  destruct (install_stops_at_bad_name 1%nat with_bad_name c [NStr "a"] (NList ["b"]) []
              Hc Hn Hall Hbad Hout) as (Hev & _ & Hlog & _ & Hun).
  split; [exact Hev|]. split; [|exact Hun].
  apply (Hlog "a"). apply elem_of_cons. by left.
Defined.


Lemma uninstall_keeps_weak_reference_witness :
  let w := exec (__init__ (AOther (NStr "a")) true 1) configured in
  eval (uninstall 1%nat) w = Returned tt ∧
  _handlers (exec (uninstall 1%nat) w) = ∅ ∧
  _handlerList (exec (uninstall 1%nat) w) = [VRef 0%nat; VRef 1%nat] ∧
  get_logger (exec (uninstall 1%nat) w) "a" = mkLogger 30 [0%nat].
Proof.
  assert (by_reference (exec (__init__ (AOther (NStr "a")) true 1) configured)) as Hw.
  { assert (_handlers (exec (__init__ (AOther (NStr "a")) true 1) configured) = ∅) as Hd
      by (by vm_compute).
    assert (_handlerList (exec (__init__ (AOther (NStr "a")) true 1) configured)
            = [VRef 0%nat; VRef 1%nat]) as Hl by (by vm_compute).
    split.
    - intros v Hv. rewrite Hd, dom_empty_L in Hv. by apply elem_of_empty in Hv.
    - intros v Hv. rewrite Hl in Hv.
      apply elem_of_cons in Hv as [->|Hv]; [eauto|].
      apply elem_of_cons in Hv as [->|Hv]; [eauto|].
      by apply elem_of_nil in Hv. }
  assert (1%nat ∈ instances (exec (__init__ (AOther (NStr "a")) true 1) configured) →
          installed_ok (exec (__init__ (AOther (NStr "a")) true 1) configured) 1%nat) as Hok.
  { intros _. eexists. split; [vm_compute; reflexivity|].
    repeat constructor; [by exists "a"|by eexists]. }
  destruct (uninstall_keeps_weak_reference 1%nat _ Hw Hok) as (Hev & Hd & Hl & _).
  split; [exact Hev|]. split; [rewrite Hd; by vm_compute|].
  split; [rewrite Hl; by vm_compute|]. by vm_compute.
Defined.

Lemma exit_audit_warns_iff_still_installed_witness :
  let tr := [Construct (ATuple [NStr "app.db"]) true 1] in
  let w := exec (__init__ (ATuple [NStr "app.db"]) true 1) initial in
  let order := elements (instances w) in
  pristine initial ∧ Forall well_typed tr ∧ reaches initial tr w ∧
  order ≡ₚ elements (instances w) ∧
  ∃ warning,
    atexit (λ s, s) order w = (Returned warning, w) ∧
    (warning = None ↔ currently_installed tr = ∅).
Proof.
  intros tr w order.
  assert (Forall well_typed tr) as Hwt by (repeat constructor; by exists "app.db").
  assert (reaches initial tr w) as Hreach.
  { subst tr w. eapply (reaches_snoc _ []); [apply reaches_nil|apply step_construct]. }
  split; [done|]. split; [done|]. split; [done|]. split; [done|].
  destruct (exit_audit_warns_iff_still_installed (λ s, s) initial tr w order
              ltac:(done) Hwt Hreach (reflexivity _)) as (warning & Hrun & Hiff & _).
  exists warning. split; [exact Hrun|exact Hiff].
Defined.

Lemma exit_hook_registered_once_per_class_witness :
  let p := mkProcess two_captures None in
  let cx := mkLogCapture [NStr "a"] 1 ∅ ∅ [] in
  let cy := mkLogCapture [NStr "a"] 2 ∅ ∅ [] in
  let plain_first := (LogCaptureForDecorator_install 2%nat (lift (install 1%nat) p).2).2 in
  let decorator_first := (lift (install 1%nat) (LogCaptureForDecorator_install 2%nat p).2).2 in
  1%nat ≠ 2%nat ∧
  heap (base p) !! 1%nat = Some cx ∧ heap (base p) !! 2%nat = Some cy ∧
  Forall hashable (names cx) ∧ Forall hashable (names cy) ∧
  atexit_setup (base p) = false ∧ decorator_atexit_setup p = None ∧
  atexit_hooks (base plain_first) = 1%nat ∧
  atexit_hooks (base decorator_first) = 2%nat.
Proof.
  intros p cx cy plain_first decorator_first.
  assert (1%nat ≠ 2%nat) as Hne by done.
  assert (heap (base p) !! 1%nat = Some cx) as Hx by (by vm_compute).
  assert (heap (base p) !! 2%nat = Some cy) as Hy by (by vm_compute).
  assert (Forall hashable (names cx)) as Hax by (repeat constructor; by exists "a").
  assert (Forall hashable (names cy)) as Hay by (repeat constructor; by exists "a").
  do 7 (split; [done|]).
  destruct (exit_hook_registered_once_per_class 1%nat 2%nat p cx cy Hne Hx Hy Hax Hay
              eq_refl eq_refl) as (_ & _ & Hpf & Hdf & _).
  split; [exact Hpf|exact Hdf].
Defined.

Lemma log_capture_installs_around_the_call_witness :
  let p := mkProcess configured None in
  let p1 := (lift (log_capture [NStr "a"] None) p).2 in
  let p2 := (LogCaptureForDecorator_install 1%nat p1).2 in
  let p3 := (lift (uninstall 1%nat) p2).2 in
  Forall hashable [NStr "a"] ∧ NoDup (channels [NStr "a"]) ∧
  (lift (log_capture [NStr "a"] None) p).1 = Returned 1%nat ∧
  loggers (base p1) = loggers (base p) ∧
  (LogCaptureForDecorator_install 1%nat p1).1 = Returned 1%nat ∧
  get_logger (base p2) "a" = mkLogger 1 [1%nat] ∧
  ∀ k, get_logger (base p3) k = get_logger (base p) k.
Proof.
  intros p p1 p2 p3.
  assert (Forall hashable [NStr "a"]) as Hall by (repeat constructor; by exists "a").
  assert (NoDup (channels [NStr "a"])) as Hnd by apply NoDup_singleton.
  split; [done|]. split; [done|].
  destruct (log_capture_installs_around_the_call [NStr "a"] None p Hall Hnd)
    as (Hev1 & Hl1 & _ & _ & Hev2 & _ & Hswap & _ & Hlog & _).
  split; [exact Hev1|]. split; [exact Hl1|]. split; [exact Hev2|].
  split; [|exact Hlog]. apply (Hswap "a"). apply elem_of_cons. by left.
Defined.
